(** * react-native-reanimated-progress: AnimatedProgressCircle and
      AnimatedProgressBar

    A shallow embedding of the two components of [src/AnimatedProgressCircle.tsx]
    and [src/AnimatedProgressBar.tsx].

    Number model.  The props and shared values of the components are
    modelled as exact rationals ([Q]): the sign of zero and the rounding of
    each operation are outside the model, and equality of numbers is [==]
    ([Qeq]).  [Math.PI] is the rational value of the IEEE double the
    constant holds.  The clamp of [progress] is also given over
    [JSNumber.t], which adds [NaN] and the two infinities, because the
    components pass any [number] through it unchecked.

    Runtime model.  React is modelled by explicit state passing: a component
    instance is a record of its current props and of its shared values;
    [mount], [render], [unmount], [handleLayout] and [frame] are the events
    that change it.  An effect runs at mount and at every render whose
    dependency array changed, its cleanup first.

    The animation primitives of the host library ([withTiming],
    [withRepeat], [cancelAnimation], [interpolate] and assignment to a
    shared value) are modelled in [Module Reanimated].  A timed transition
    is a function of the time since its start, which is what the library
    computes on every animation frame.  For a repeated transition
    [repeat_at] gives the value when frames fall on the ends of the
    repetitions; it serves for the ranges of the looping values.  Statements
    about when a repetition ends are made over [Module Driver], which runs
    the [onStart] and [onFrame] steps of the repeated transition frame by
    frame at arbitrary timestamps. *)

From Stdlib Require Import QArith Qminmax Qround Lqa Bool ZArith List Lia String.
From Stdlib Require Import Morphisms.
Import ListNotations.
Open Scope Q_scope.

(* ================================================================== *)
(** ** JavaScript primitives used by the components *)

Module JS.

Definition Math_max (a b : Q) : Q := Qmax a b.
Definition Math_min (a b : Q) : Q := Qmin a b.

(** [Math.PI] is the double 0x400921FB54442D18 = 884279719003555 / 2^48. *)
Definition Math_PI : Q := 884279719003555 # 281474976710656.

(** Truthiness of a [number | null]: [null] and [0] are falsy. *)
Definition truthy (x : option Q) : bool :=
  match x with
  | None => false
  | Some v => negb (Qeq_bool v 0)
  end.

(** [x || d] for a [number | null] left operand. *)
Definition or_else {A : Type} (inj : Q -> A) (x : option Q) (d : A) : A :=
  match x with
  | Some v => if truthy x then inj v else d
  | None => d
  end.

(** [x ?? d] *)
Definition nullish {A : Type} (x : option A) (d : A) : A :=
  match x with Some v => v | None => d end.

(** [Object.is] on the dependency-array entries that are numbers. *)
Definition same_number (a b : Q) : bool := Qeq_bool a b.

Definition same_width (a b : option Q) : bool :=
  match a, b with
  | None, None => true
  | Some x, Some y => Qeq_bool x y
  | _, _ => false
  end.

End JS.

(* ================================================================== *)
(** ** The animation primitives (react-native-reanimated) *)

Module Easing.

Definition linear (t : Q) : Q := t.
Definition quad (t : Q) : Q := t * t.

(** [Easing.inOut(f)]: [f] on the first half, mirrored on the second. *)
Definition inOut (f : Q -> Q) (t : Q) : Q :=
  if Qle_bool (1 # 2) t
  then 1 - f ((1 - t) * 2) / 2
  else f (t * 2) / 2.

End Easing.

Module Reanimated.

Record TimingConfig : Type := mkConfig { duration : Q; easing : Q -> Q }.

(** [withTiming(toValue, config)] *)
Record Timing : Type := withTiming { toValue : Q; config : TimingConfig }.

(** The two shapes of animation object the components build. *)
Inductive Animation : Type :=
| once (t : Timing)
| withRepeat (t : Timing) (numberOfReps : Z) (reverse : bool).

(** The easing [withTiming] uses when the config names none. *)
Definition default_easing : Q -> Q := Easing.inOut Easing.quad.

(** A shared value either holds a plain number or is driven by an
    animation that started from [from] and has run for [elapsed] ms. *)
Inductive SharedValue : Type :=
| Idle (v : Q)
| Running (a : Animation) (from : Q) (elapsed : Q).

Definition useSharedValue (init : Q) : SharedValue := Idle init.

(** Value of a timed transition [from -> toValue t] after [elapsed] ms:
    the target once the duration has passed, the eased blend before. *)
Definition timing_at (from : Q) (t : Timing) (elapsed : Q) : Q :=
  if Qle_bool (duration (config t)) elapsed then toValue t
  else from + (toValue t - from) * easing (config t) (elapsed / duration (config t)).

(** The transition of [t] run backwards, from its target to [from]. *)
Definition reversed (from : Q) (t : Timing) : Timing :=
  withTiming from (config t).

(** Value of a repeated transition after [elapsed] ms when the animation
    frames fall on the ends of the repetitions.  Repetition [k] covers the
    interval [k*duration, (k+1)*duration); with [reverse] the odd
    repetitions run backwards.  A non-positive [numberOfReps] repeats
    without end.  With a duration of 0 every frame ends a repetition, and
    the value given is the target.  [Driver] below steps the same
    animation frame by frame. *)
Definition repeat_at (from : Q) (t : Timing) (numberOfReps : Z) (reverse : bool)
           (elapsed : Q) : Q :=
  let d := duration (config t) in
  if Qle_bool d 0 then toValue t else
  let k := Qfloor (elapsed / d) in
  let local := elapsed - inject_Z k * d in
  if ((0 <? numberOfReps)%Z && (numberOfReps <=? k)%Z)%bool then
    if (reverse && Z.even numberOfReps)%bool then from else toValue t
  else if (reverse && Z.odd k)%bool then timing_at (toValue t) (reversed from t) local
  else timing_at from t local.

Definition sample (a : Animation) (from elapsed : Q) : Q :=
  match a with
  | once t => timing_at from t elapsed
  | withRepeat t n reverse => repeat_at from t n reverse elapsed
  end.

(** [sv.value] read *)
Definition read (sv : SharedValue) : Q :=
  match sv with
  | Idle v => v
  | Running a from elapsed => sample a from elapsed
  end.

(** [sv.value = v] with a plain number: any running animation is dropped. *)
Definition assign (v : Q) (sv : SharedValue) : SharedValue := Idle v.

(** A [withTiming] assigned over a [withTiming] that is still running
    towards the same target takes over its start value and its start time
    ([onStart] of the timing animation). *)
Definition continues (a : Animation) (sv : SharedValue) : bool :=
  match a, sv with
  | once t, Running (once t') _ elapsed =>
      (JS.same_number (toValue t') (toValue t)
       && negb (Qle_bool (duration (config t')) elapsed))%bool
  | _, _ => false
  end.

(** [sv.value = animation].  A [withTiming] whose target the value holds
    already is not started; one that continues the running animation
    keeps its timeline; any other animation starts from the current
    value. *)
Definition animate (a : Animation) (sv : SharedValue) : SharedValue :=
  match a with
  | once t =>
      if JS.same_number (read sv) (toValue t) then Idle (read sv)
      else
        match sv with
        | Running _ from elapsed =>
            if continues a sv then Running a from elapsed else Running a (read sv) 0
        | Idle v => Running a v 0
        end
  | withRepeat _ _ _ => Running a (read sv) 0
  end.

(** [cancelAnimation(sv)]: the value stays where the animation left it. *)
Definition cancelAnimation (sv : SharedValue) : SharedValue := Idle (read sv).

(** The animation driver advances every running animation by [dt] ms. *)
Definition advance (dt : Q) (sv : SharedValue) : SharedValue :=
  match sv with
  | Idle v => Idle v
  | Running a from elapsed => Running a from (elapsed + dt)
  end.

Definition is_running (sv : SharedValue) : bool :=
  match sv with Idle _ => false | Running _ _ _ => true end.

(** [interpolate(x, [i0, i1], [o0, o1])] with the default (extending)
    extrapolation: the line through the two points. *)
Definition interpolate (x : Q) (input output : Q * Q) : Q :=
  let '(i0, i1) := input in
  let '(o0, o1) := output in
  if Qeq_bool (i1 - i0) 0 then o0
  else o0 + (x - i0) / (i1 - i0) * (o1 - o0).

End Reanimated.

Import JS Reanimated.

(** [Math.max(0, Math.min(1, progress))], written in both components. *)
Definition clampedProgress (progress : Q) : Q := Math_max 0 (Math_min 1 progress).

(** The mathematical clamp of [x] to the interval [[lo, hi]]. *)
Definition clamp (x lo hi : Q) : Q :=
  if Qle_bool x lo then lo else if Qle_bool hi x then hi else x.

(* ================================================================== *)
(** ** AnimatedProgressCircle *)

Module Circle.

Inductive Direction : Type := clockwise | counter_clockwise.

(** [AnimatedProgressCircleProps].  The colour props and [children] enter
    no computed number and are left out. *)
Record Props : Type := mkProps {
  progress : option Q;
  size : Q;
  thickness : option Q;
  direction : option Direction;
  animated : option bool;
  animationDuration : option Q;
  indeterminate : option bool;
  spinDuration : option Q
}.

(** The props after the defaults of the parameter destructuring. *)
Record Config : Type := mkConfig {
  c_progress : Q;
  c_size : Q;
  c_thickness : Q;
  c_direction : Direction;
  c_animated : bool;
  c_animationDuration : Q;
  c_indeterminate : bool;
  c_spinDuration : Q
}.

Definition destructure (p : Props) : Config :=
  {| c_progress := nullish (progress p) 0;
     c_size := size p;
     c_thickness := nullish (thickness p) 4;
     c_direction := nullish (direction p) clockwise;
     c_animated := nullish (animated p) true;
     c_animationDuration := nullish (animationDuration p) 300;
     c_indeterminate := nullish (indeterminate p) false;
     c_spinDuration := nullish (spinDuration p) 1000 |}.

Definition radius (c : Config) : Q := (c_size c - c_thickness c) / 2.
Definition circumference (c : Config) : Q := 2 * Math_PI * radius c.
Definition center (c : Config) : Q := c_size c / 2.
Definition isCounterClockwise (c : Config) : bool :=
  match c_direction c with counter_clockwise => true | clockwise => false end.

(** One mounted instance: the props of the last render and the two
    shared values. *)
Record State : Type := mkState {
  props : Config;
  progressValue : SharedValue;
  spinRotation : SharedValue
}.

(** Effect "Update progress when prop changes". *)
Definition progressEffect (c : Config) (sv : SharedValue) : SharedValue :=
  let clamped := clampedProgress (c_progress c) in
  if (c_animated c && negb (c_indeterminate c))%bool then
    animate (once (withTiming clamped
                     (Reanimated.mkConfig (c_animationDuration c) default_easing))) sv
  else assign clamped sv.

Definition progressDeps (old new : Config) : bool :=
  (same_number (c_progress old) (c_progress new)
   && Bool.eqb (c_animated old) (c_animated new)
   && same_number (c_animationDuration old) (c_animationDuration new)
   && Bool.eqb (c_indeterminate old) (c_indeterminate new))%bool.

(** Effect "Handle indeterminate spinning animation" and its cleanup. *)
Definition spinEffect (c : Config) (sv : SharedValue) : SharedValue :=
  if c_indeterminate c then
    animate (withRepeat
               (withTiming 360 (Reanimated.mkConfig (c_spinDuration c) Easing.linear))
               (-1) false) sv
  else assign 0 (cancelAnimation sv).

Definition spinCleanup (sv : SharedValue) : SharedValue := cancelAnimation sv.

Definition spinDeps (old new : Config) : bool :=
  (Bool.eqb (c_indeterminate old) (c_indeterminate new)
   && same_number (c_spinDuration old) (c_spinDuration new))%bool.

Definition mount (p : Props) : State :=
  let c := destructure p in
  {| props := c;
     progressValue := progressEffect c (useSharedValue (clampedProgress (c_progress c)));
     spinRotation := spinEffect c (useSharedValue 0) |}.

Definition render (p : Props) (st : State) : State :=
  let c := destructure p in
  {| props := c;
     progressValue :=
       if progressDeps (props st) c then progressValue st
       else progressEffect c (progressValue st);
     spinRotation :=
       if spinDeps (props st) c then spinRotation st
       else spinEffect c (spinCleanup (spinRotation st)) |}.

Definition unmount (st : State) : State :=
  {| props := props st;
     progressValue := progressValue st;
     spinRotation := spinCleanup (spinRotation st) |}.

(** [dt] ms pass on the animation driver. *)
Definition frame (dt : Q) (st : State) : State :=
  {| props := props st;
     progressValue := advance dt (progressValue st);
     spinRotation := advance dt (spinRotation st) |}.

Record AnimatedProps : Type := mkAnimatedProps {
  strokeDasharray : option (Q * Q);
  strokeDashoffset : Q
}.

Definition determinateProps (st : State) : AnimatedProps :=
  let offset := circumference (props st) * (1 - read (progressValue st)) in
  {| strokeDasharray := None;
     strokeDashoffset := if isCounterClockwise (props st) then - offset else offset |}.

Definition indeterminateProps (st : State) : AnimatedProps :=
  let arcLength := circumference (props st) * 0.25 in
  let gapLength := circumference (props st) * 0.75 in
  {| strokeDasharray := Some (arcLength, gapLength);
     strokeDashoffset := 0 |}.

Definition animatedProps (st : State) : AnimatedProps :=
  if c_indeterminate (props st) then indeterminateProps st else determinateProps st.

(** The animated arc as drawn: the static props of [AnimatedSvgCircle]
    overridden by [animatedProps], and the rotation of the spinner
    container around it (present only while indeterminate). *)
Record Arc : Type := mkArc {
  cx : Q; cy : Q; r : Q; strokeWidth : Q;
  dasharray : option (Q * Q);
  dashoffset : Q;
  spinnerRotate : option Q
}.

Definition renderSvg (st : State) : Arc :=
  let c := props st in
  let static_dasharray :=
    if c_indeterminate c then None else Some (circumference c, circumference c) in
  {| cx := center c; cy := center c; r := radius c; strokeWidth := c_thickness c;
     dasharray := match strokeDasharray (animatedProps st) with
                  | Some d => Some d
                  | None => static_dasharray
                  end;
     dashoffset := strokeDashoffset (animatedProps st);
     spinnerRotate :=
       if c_indeterminate c then Some (read (spinRotation st)) else None |}.

(** The states an instance can be in: mounted, then any sequence of
    renders and animation frames (time never runs backwards). *)
Inductive reachable : State -> Prop :=
| reach_mount p : reachable (mount p)
| reach_render p st : reachable st -> reachable (render p st)
| reach_frame dt st : 0 <= dt -> reachable st -> reachable (frame dt st).

End Circle.

(* ================================================================== *)
(** ** AnimatedProgressBar *)

Module Bar.

(** A [DimensionValue] as the container style uses it: pixels or a
    percentage of the parent. *)
Inductive DimensionValue : Type := px (v : Q) | percent (v : Q).

(** [AnimatedProgressBarProps]; [width] is [None] for [null] and for a
    missing prop, which the default turns into [null]. *)
Record Props : Type := mkProps {
  progress : option Q;
  width : option Q;
  height : option Q;
  color : option string;
  unfilledColor : option string;
  borderRadius : option Q;
  borderWidth : option Q;
  borderColor : option string;
  animated : option bool;
  animationDuration : option Q;
  indeterminate : option bool;
  indeterminateDuration : option Q
}.

(** The props after the defaults of the parameter destructuring
    ([borderColor] has none). *)
Record Config : Type := mkConfig {
  c_progress : Q;
  c_width : option Q;
  c_height : Q;
  c_color : string;
  c_unfilledColor : string;
  c_borderRadius : Q;
  c_borderWidth : Q;
  c_borderColor : option string;
  c_animated : bool;
  c_animationDuration : Q;
  c_indeterminate : bool;
  c_indeterminateDuration : Q
}.

Definition destructure (p : Props) : Config :=
  {| c_progress := nullish (progress p) 0;
     c_width := width p;
     c_height := nullish (height p) 4;
     c_color := nullish (color p) "#3498db"%string;
     c_unfilledColor := nullish (unfilledColor p) "#ecf0f1"%string;
     c_borderRadius := nullish (borderRadius p) 0;
     c_borderWidth := nullish (borderWidth p) 0;
     c_borderColor := borderColor p;
     c_animated := nullish (animated p) true;
     c_animationDuration := nullish (animationDuration p) 300;
     c_indeterminate := nullish (indeterminate p) false;
     c_indeterminateDuration := nullish (indeterminateDuration p) 1000 |}.

Record State : Type := mkState {
  props : Config;
  progressValue : SharedValue;
  indeterminateValue : SharedValue;
  containerWidth : SharedValue
}.

Record ContainerStyle : Type := mkContainerStyle {
  cs_height : Q;
  cs_width : DimensionValue;
  cs_backgroundColor : string;
  cs_borderRadius : Q;
  cs_borderWidth : Q;
  cs_borderColor : string
}.

Definition containerStyle (c : Config) : ContainerStyle :=
  {| cs_height := c_height c;
     cs_width := or_else px (c_width c) (percent 100);
     cs_backgroundColor := c_unfilledColor c;
     cs_borderRadius := c_borderRadius c;
     cs_borderWidth := c_borderWidth c;
     cs_borderColor := nullish (c_borderColor c) (c_unfilledColor c) |}.

Record ProgressBarStyle : Type := mkProgressBarStyle {
  pb_backgroundColor : string;
  pb_borderRadius : Q
}.

Definition progressBarStyle (c : Config) : ProgressBarStyle :=
  {| pb_backgroundColor := c_color c;
     pb_borderRadius := Math_max 0 (c_borderRadius c - c_borderWidth c) |}.

(** The animated style of the filled segment. *)
Record BarStyle : Type := mkBarStyle {
  bs_width : Q;
  bs_translateX : option Q
}.

Definition determinateStyle (st : State) : BarStyle :=
  let barWidth := read (containerWidth st) * read (progressValue st) in
  {| bs_width := barWidth; bs_translateX := None |}.

Definition indeterminateStyle (st : State) : BarStyle :=
  let barWidth := read (containerWidth st) * 0.3 in
  let maxTranslate := read (containerWidth st) - barWidth in
  let translateX := interpolate (read (indeterminateValue st)) (0, 1) (0, maxTranslate) in
  {| bs_width := barWidth; bs_translateX := Some translateX |}.

Definition barStyle (st : State) : BarStyle :=
  if c_indeterminate (props st) then indeterminateStyle st else determinateStyle st.

(** Effect "Update progress when prop changes". *)
Definition progressEffect (c : Config) (sv : SharedValue) : SharedValue :=
  let clamped := clampedProgress (c_progress c) in
  if (c_animated c && negb (c_indeterminate c))%bool then
    animate (once (withTiming clamped
                     (Reanimated.mkConfig (c_animationDuration c) default_easing))) sv
  else assign clamped sv.

Definition progressDeps (old new : Config) : bool :=
  (same_number (c_progress old) (c_progress new)
   && Bool.eqb (c_animated old) (c_animated new)
   && same_number (c_animationDuration old) (c_animationDuration new)
   && Bool.eqb (c_indeterminate old) (c_indeterminate new))%bool.

(** Effect "Update container width when prop changes". *)
Definition widthEffect (c : Config) (sv : SharedValue) : SharedValue :=
  match c_width c with
  | Some w => if truthy (c_width c) then assign w sv else sv
  | None => sv
  end.

Definition widthDeps (old new : Config) : bool := same_width (c_width old) (c_width new).

(** [handleLayout] of the render whose props are [props st], called with
    [event.nativeEvent.layout.width]. *)
Definition handleLayout (layoutWidth : Q) (st : State) : State :=
  {| props := props st;
     progressValue := progressValue st;
     indeterminateValue := indeterminateValue st;
     containerWidth :=
       if negb (truthy (c_width (props st)))
       then assign layoutWidth (containerWidth st)
       else containerWidth st |}.

Definition indeterminateCleanup (sv : SharedValue) : SharedValue := cancelAnimation sv.

Definition indeterminateDeps (old new : Config) : bool :=
  (Bool.eqb (c_indeterminate old) (c_indeterminate new)
   && same_number (c_indeterminateDuration old) (c_indeterminateDuration new))%bool.

(** [dt] ms pass on the animation driver. *)
Definition frame (dt : Q) (st : State) : State :=
  {| props := props st;
     progressValue := advance dt (progressValue st);
     indeterminateValue := advance dt (indeterminateValue st);
     containerWidth := advance dt (containerWidth st) |}.

Definition unmount (st : State) : State :=
  {| props := props st;
     progressValue := progressValue st;
     indeterminateValue := indeterminateCleanup (indeterminateValue st);
     containerWidth := containerWidth st |}.

Section WithEase.

(** [Easing.ease] is a cubic Bezier curve the host library evaluates
    numerically; the components only rely on it being a function of the
    number it is given. *)
Variable Easing_ease : Q -> Q.

(** Effect "Handle indeterminate animation". *)
Definition indeterminateEffect (c : Config) (sv : SharedValue) : SharedValue :=
  if c_indeterminate c then
    animate (withRepeat
               (withTiming 1 (Reanimated.mkConfig (c_indeterminateDuration c)
                                                 (Easing.inOut Easing_ease)))
               (-1) true) sv
  else assign 0 (cancelAnimation sv).

Definition mount (p : Props) : State :=
  let c := destructure p in
  {| props := c;
     progressValue := progressEffect c (useSharedValue (clampedProgress (c_progress c)));
     indeterminateValue := indeterminateEffect c (useSharedValue 0);
     containerWidth := widthEffect c (useSharedValue (or_else (fun w => w) (c_width c) 0)) |}.

Definition render (p : Props) (st : State) : State :=
  let c := destructure p in
  {| props := c;
     progressValue :=
       if progressDeps (props st) c then progressValue st
       else progressEffect c (progressValue st);
     indeterminateValue :=
       if indeterminateDeps (props st) c then indeterminateValue st
       else indeterminateEffect c (indeterminateCleanup (indeterminateValue st));
     containerWidth :=
       if widthDeps (props st) c then containerWidth st
       else widthEffect c (containerWidth st) |}.

(** The states an instance can be in: mounted, then any sequence of
    renders, layout events and animation frames (time never runs
    backwards). *)
Inductive reachable : State -> Prop :=
| reach_mount p : reachable (mount p)
| reach_render p st : reachable st -> reachable (render p st)
| reach_layout w st : reachable st -> reachable (handleLayout w st)
| reach_frame dt st : 0 <= dt -> reachable st -> reachable (frame dt st).

End WithEase.

End Bar.

(* ================================================================== *)
(** ** Notions the statements use *)

(** A shared value is on its way to [target]: it holds it already, or a
    single timed transition of duration [d] towards it is running. *)
Definition settling (target d : Q) (sv : SharedValue) : Prop :=
  match sv with
  | Idle v => v == target
  | Running (once t) _ elapsed =>
      toValue t == target /\ duration (config t) == d /\ 0 <= elapsed
  | Running (withRepeat _ _ _) _ _ => False
  end.

(** A shared value that no animation drives and that holds [v]. *)
Definition rests_at (v : Q) (sv : SharedValue) : Prop :=
  match sv with
  | Idle x => x == v
  | Running _ _ _ => False
  end.

(** The width shared value is never animated, and holds the explicit
    width whenever the [width] prop is a non-zero number. *)
Definition width_inv (st : Bar.State) : Prop :=
  exists v, Bar.containerWidth st = Idle v /\
            forall w, Bar.c_width (Bar.props st) = Some w -> ~ w == 0 -> v == w.

(** A shared value driven by an endless repetition of the timed
    transition to [target] with duration [d] and easing [e]. *)
Definition repeating (target d : Q) (e : Q -> Q) (rv : bool) (sv : SharedValue) : Prop :=
  match sv with
  | Running (withRepeat t n reverse) _ elapsed =>
      toValue t = target /\ duration (config t) == d /\ easing (config t) = e /\
      n = (-1)%Z /\ reverse = rv /\ 0 <= elapsed
  | _ => False
  end.

(** The shared value behind a mode of the component: looping while the
    component is indeterminate, idle at 0 while it is not. *)
Definition loop_inv (indeterminate : bool) (target d : Q) (e : Q -> Q) (rv : bool)
           (sv : SharedValue) : Prop :=
  if indeterminate then repeating target d e rv sv else rests_at 0 sv.

(* ================================================================== *)
(** ** Sample inputs *)

(** [<AnimatedProgressCircle progress={0.75} size={100} thickness={8} />] *)
Definition circle_demo : Circle.Props :=
  {| Circle.progress := Some 0.75; Circle.size := 100; Circle.thickness := Some 8;
     Circle.direction := None; Circle.animated := None;
     Circle.animationDuration := None; Circle.indeterminate := None;
     Circle.spinDuration := None |}.

(** [<AnimatedProgressCircle progress={1.5} size={100}
      direction="counter-clockwise" />] *)
Definition circle_overdriven : Circle.Props :=
  {| Circle.progress := Some 1.5; Circle.size := 100; Circle.thickness := None;
     Circle.direction := Some Circle.counter_clockwise; Circle.animated := None;
     Circle.animationDuration := None; Circle.indeterminate := None;
     Circle.spinDuration := None |}.

(** [<AnimatedProgressCircle indeterminate progress={0.4} size={64} />] *)
Definition circle_spinner : Circle.Props :=
  {| Circle.progress := Some 0.4; Circle.size := 64; Circle.thickness := None;
     Circle.direction := None; Circle.animated := None;
     Circle.animationDuration := None; Circle.indeterminate := Some true;
     Circle.spinDuration := None |}.

(** A polynomial stand-in for [Easing.ease] (smoothstep), used only where
    a sample evaluation needs some concrete curve. *)
Definition ease_standin (t : Q) : Q := t * t * (3 - 2 * t).

(** A bar with the given [progress], [width] and [indeterminate] and no
    other prop. *)
Definition bar_props (progress width : option Q) (indeterminate : option bool) : Bar.Props :=
  {| Bar.progress := progress; Bar.width := width; Bar.height := None;
     Bar.color := None; Bar.unfilledColor := None;
     Bar.borderRadius := None; Bar.borderWidth := None; Bar.borderColor := None;
     Bar.animated := None; Bar.animationDuration := None;
     Bar.indeterminate := indeterminate; Bar.indeterminateDuration := None |}.

(** [<AnimatedProgressBar progress={0.5} height={4} />] *)
Definition bar_demo : Bar.Props :=
  {| Bar.progress := Some 0.5; Bar.width := None; Bar.height := Some 4;
     Bar.color := None; Bar.unfilledColor := None;
     Bar.borderRadius := None; Bar.borderWidth := None; Bar.borderColor := None;
     Bar.animated := None; Bar.animationDuration := None;
     Bar.indeterminate := None; Bar.indeterminateDuration := None |}.

(** [<AnimatedProgressBar progress={0.25} width={120} />] *)
Definition bar_fixed : Bar.Props := bar_props (Some 0.25) (Some 120) None.

(** [<AnimatedProgressBar progress={0.5} width={0} />] *)
Definition bar_zero_width : Bar.Props := bar_props (Some 0.5) (Some 0) None.

(** [<AnimatedProgressBar indeterminate width={200} />] *)
Definition bar_looping : Bar.Props := bar_props None (Some 200) (Some true).

(** [<AnimatedProgressBar borderRadius={2} borderWidth={5} />] *)
Definition bar_thick_border : Bar.Props :=
  {| Bar.progress := None; Bar.width := None; Bar.height := None;
     Bar.color := None; Bar.unfilledColor := None;
     Bar.borderRadius := Some 2; Bar.borderWidth := Some 5; Bar.borderColor := None;
     Bar.animated := None; Bar.animationDuration := None;
     Bar.indeterminate := None; Bar.indeterminateDuration := None |}.

(* ================================================================== *)
(** ** Further notions: ranges of the shared values, the track circle *)

(** An easing curve that maps the unit interval into itself. *)
Definition unit_range (e : Q -> Q) : Prop :=
  forall x, 0 <= x <= 1 -> 0 <= e x <= 1.

(** A shared value whose held value, or whose start and target, lie in
    [[lo, hi]], any running animation using a curve of unit range. *)
Definition bounded (lo hi : Q) (sv : SharedValue) : Prop :=
  match sv with
  | Idle v => lo <= v <= hi
  | Running a from elapsed =>
      lo <= from <= hi /\ 0 <= elapsed /\
      match a with
      | once t | withRepeat t _ _ =>
          lo <= toValue t <= hi /\ unit_range (easing (config t))
      end
  end.

(** The background circle of [renderSvg]: the plain [SvgCircle] drawn
    under the animated arc. *)
Record Track : Type := mkTrack {
  track_cx : Q; track_cy : Q; track_r : Q; track_strokeWidth : Q
}.

Definition backgroundCircle (c : Circle.Config) : Track :=
  {| track_cx := Circle.center c; track_cy := Circle.center c;
     track_r := Circle.radius c; track_strokeWidth := Circle.c_thickness c |}.

(** The outer [View] of the circle: [{width: size, height: size}]. *)
Definition circleBox (c : Circle.Config) : Q * Q := (Circle.c_size c, Circle.c_size c).

(** [<AnimatedProgressBar indeterminate width={200}
      indeterminateDuration={500} />] *)
Definition bar_looping_fast : Bar.Props :=
  {| Bar.progress := None; Bar.width := Some 200; Bar.height := None;
     Bar.color := None; Bar.unfilledColor := None;
     Bar.borderRadius := None; Bar.borderWidth := None; Bar.borderColor := None;
     Bar.animated := None; Bar.animationDuration := None;
     Bar.indeterminate := Some true; Bar.indeterminateDuration := Some 500 |}.

(** [<AnimatedProgressCircle indeterminate progress={0.4} size={64}
      spinDuration={2000} />] *)
Definition circle_spinner_slow : Circle.Props :=
  {| Circle.progress := Some 0.4; Circle.size := 64; Circle.thickness := None;
     Circle.direction := None; Circle.animated := None;
     Circle.animationDuration := None; Circle.indeterminate := Some true;
     Circle.spinDuration := Some 2000 |}.

(** [<AnimatedProgressCircle progress={2} size={100}
      direction="counter-clockwise" animationDuration={3000} />] *)
Definition circle_overdriven_slow : Circle.Props :=
  {| Circle.progress := Some 2; Circle.size := 100; Circle.thickness := None;
     Circle.direction := Some Circle.counter_clockwise; Circle.animated := None;
     Circle.animationDuration := Some 3000; Circle.indeterminate := None;
     Circle.spinDuration := None |}.

(** [circle_demo] drawn counter-clockwise. *)
Definition circle_demo_reversed : Circle.Props :=
  {| Circle.progress := Some 0.75; Circle.size := 100; Circle.thickness := Some 8;
     Circle.direction := Some Circle.counter_clockwise; Circle.animated := None;
     Circle.animationDuration := None; Circle.indeterminate := None;
     Circle.spinDuration := None |}.

(* ================================================================== *)
(** ** Numbers that are not rationals *)

Module JSNumber.

(** A JavaScript [number] with its special values: [NaN] and the two
    infinities beside the finite values, which are taken as exact
    rationals as everywhere else. *)
Inductive t : Type := NaN | NegInfinity | Rational (q : Q) | Infinity.

(** [Math.min(a, b)]: [NaN] as soon as one argument is [NaN]. *)
Definition Math_min (a b : t) : t :=
  match a with
  | NaN => NaN
  | NegInfinity => match b with NaN => NaN | _ => NegInfinity end
  | Infinity => b
  | Rational x =>
      match b with
      | NaN => NaN
      | NegInfinity => NegInfinity
      | Infinity => Rational x
      | Rational y => Rational (JS.Math_min x y)
      end
  end.

(** [Math.max(a, b)]: [NaN] as soon as one argument is [NaN]. *)
Definition Math_max (a b : t) : t :=
  match a with
  | NaN => NaN
  | Infinity => match b with NaN => NaN | _ => Infinity end
  | NegInfinity => b
  | Rational x =>
      match b with
      | NaN => NaN
      | Infinity => Infinity
      | NegInfinity => Rational x
      | Rational y => Rational (JS.Math_max x y)
      end
  end.

End JSNumber.

(** [Math.max(0, Math.min(1, progress))] on every number the [progress]
    prop can hold; [clampedProgress] is its restriction to the rationals. *)
Definition clampedProgress_number (progress : JSNumber.t) : JSNumber.t :=
  JSNumber.Math_max (JSNumber.Rational 0) (JSNumber.Math_min (JSNumber.Rational 1) progress).

(** The number both components hand to [useSharedValue] for the progress
    shared value and that the progress effect assigns or animates to: the
    clamp of the [progress] prop, 0 standing in for a missing prop. *)
Definition progressTarget (progress : option JSNumber.t) : JSNumber.t :=
  clampedProgress_number (nullish progress (JSNumber.Rational 0)).

(** The mathematical clamp to [[0, 1]] of a number that is not [NaN]. *)
Definition clamp_unit (p : JSNumber.t) : option Q :=
  match p with
  | JSNumber.NaN => None
  | JSNumber.NegInfinity => Some 0
  | JSNumber.Rational x => Some (clamp x 0 1)
  | JSNumber.Infinity => Some 1
  end.

(* ================================================================== *)
(** ** The animation driver, frame by frame *)

(** [read] and [sample] above give the value of a shared value as a
    function of the time elapsed, each repetition lasting exactly its
    duration.  The host library advances an animation only on animation
    frames; this module steps a repeated transition frame by frame, as the
    library's [onStart] and [onFrame] do, for the statements that depend on
    when a repetition ends. *)
Module Driver.

(** The state of a [withTiming] animation object. *)
Record TimingState : Type := mkTimingState {
  t_toValue : Q;
  t_startValue : Q;
  t_startTime : Q;
  t_current : Q
}.

(** [onStart] of a timed transition with no previous animation to
    continue: it starts at [now] from [value]. *)
Definition timing_onStart (toValue value now : Q) : TimingState :=
  {| t_toValue := toValue; t_startValue := value; t_startTime := now; t_current := value |}.

(** [onFrame] of a timed transition: the new state, and whether the
    transition has finished.  It finishes on the first frame whose
    timestamp is at least [duration] after the start, and then holds the
    target. *)
Definition timing_onFrame (cfg : TimingConfig) (s : TimingState) (now : Q)
  : TimingState * bool :=
  let runtime := now - t_startTime s in
  if Qle_bool (duration cfg) runtime then
    ({| t_toValue := t_toValue s; t_startValue := t_startValue s;
        t_startTime := 0; t_current := t_toValue s |}, true)
  else
    ({| t_toValue := t_toValue s; t_startValue := t_startValue s;
        t_startTime := t_startTime s;
        t_current := t_startValue s
                     + (t_toValue s - t_startValue s)
                       * easing cfg (runtime / duration cfg) |}, false).

(** The state of a [withRepeat] animation object around a timed
    transition. *)
Record RepeatState : Type := mkRepeatState {
  r_inner : TimingState;
  r_startValue : Q;
  r_reps : Z;
  r_current : Q;
  r_finished : bool
}.

Definition repeat_onStart (t : Timing) (value now : Q) : RepeatState :=
  {| r_inner := timing_onStart (toValue t) value now;
     r_startValue := value;
     r_reps := 0;
     r_current := toValue t;
     r_finished := false |}.

(** [onFrame] of the repeat.  The inner transition is stepped and its
    value shown; when it has finished, the repetition is counted and,
    unless [numberOfReps] is positive and reached, the inner transition is
    started again at this frame's timestamp: from the value just reached
    towards the old start when [reverse], from the same start towards the
    same target otherwise. *)
Definition repeat_onFrame (cfg : TimingConfig) (numberOfReps : Z) (reverse : bool)
           (s : RepeatState) (now : Q) : RepeatState :=
  if r_finished s then s else
  let (inner, finished) := timing_onFrame cfg (r_inner s) now in
  if finished then
    let reps := (r_reps s + 1)%Z in
    if ((0 <? numberOfReps)%Z && (numberOfReps <=? reps)%Z)%bool then
      {| r_inner := inner; r_startValue := r_startValue s; r_reps := reps;
         r_current := t_current inner; r_finished := true |}
    else
      let startValue := if reverse then t_current inner else r_startValue s in
      let toValue := if reverse then r_startValue s else t_toValue inner in
      {| r_inner := timing_onStart toValue startValue now;
         r_startValue := startValue;
         r_reps := reps;
         r_current := t_current inner;
         r_finished := false |}
  else
    {| r_inner := inner; r_startValue := r_startValue s; r_reps := r_reps s;
       r_current := t_current inner; r_finished := false |}.

(** Assigning the repeat to a shared value that holds [value] at
    timestamp [now]: [onStart], then a first frame at once. *)
Definition start (t : Timing) (numberOfReps : Z) (reverse : bool) (value now : Q)
  : RepeatState :=
  repeat_onFrame (config t) numberOfReps reverse (repeat_onStart t value now) now.

(** The animation frames at the timestamps [frames], in order. *)
Definition run (t : Timing) (numberOfReps : Z) (reverse : bool)
           (s : RepeatState) (frames : list Q) : RepeatState :=
  fold_left (repeat_onFrame (config t) numberOfReps reverse) frames s.

(** Timestamps that never go back, starting from [prev]. *)
Fixpoint ascending (prev : Q) (frames : list Q) : bool :=
  match frames with
  | [] => true
  | f :: rest => (Qle_bool prev f && ascending f rest)%bool
  end.

(** The two ends of repetition number [reps] of a loop started from
    [from] towards [to]. *)
Definition leg_ends (reverse : bool) (from to : Q) (reps : Z) : Q * Q :=
  if (reverse && Z.odd reps)%bool then (to, from) else (from, to).

(** An endless loop in the middle of repetition [r_reps]: not finished,
    its inner transition running between the ends of that repetition,
    started no earlier than [r_reps] durations after [t0] and no later
    than [now]. *)
Definition looping (t : Timing) (reverse : bool) (from t0 now : Q) (s : RepeatState) : Prop :=
  r_finished s = false /\
  (0 <= r_reps s)%Z /\
  (t_startValue (r_inner s), t_toValue (r_inner s))
  = leg_ends reverse from (toValue t) (r_reps s) /\
  r_startValue s = t_startValue (r_inner s) /\
  t0 + inject_Z (r_reps s) * duration (config t) <= t_startTime (r_inner s) /\
  t_startTime (r_inner s) <= now.

(** [n] frames, one every [step] ms after [t0]. *)
Definition frames_every (step t0 : Q) (n : nat) : list Q :=
  map (fun k => t0 + inject_Z (Z.of_nat k) * step) (seq 1 n).

End Driver.

(** The frame-by-frame run of the loop a shared value was assigned, from
    the assignment at [t0] through [frames]; [None] when the shared value
    holds a plain number or a single transition. *)
Definition loop_run (sv : SharedValue) (t0 : Q) (frames : list Q)
  : option Driver.RepeatState :=
  match sv with
  | Running (withRepeat t n reverse) from _ =>
      Some (Driver.run t n reverse (Driver.start t n reverse from t0) frames)
  | _ => None
  end.

(** The value a shared value shows after the frames at [frames] when the
    loop it was assigned is run frame by frame from [t0]; for a shared
    value without a loop, the value it holds. *)
Definition loop_value (sv : SharedValue) (t0 : Q) (frames : list Q) : Q :=
  match loop_run sv t0 frames with
  | Some s => Driver.r_current s
  | None => read sv
  end.

(* ================================================================== *)
(** ** Arithmetic of the clamp *)

Ltac qle_cases b H :=
  destruct b eqn:H;
  [ apply Qle_bool_iff in H
  | apply not_true_iff_false in H; rewrite Qle_bool_iff in H ].

Ltac qmax_cases a b :=
  let H := fresh "Hmax" in
  destruct (Q.max_spec a b) as [[? H] | [? H]]; rewrite H.

Ltac qmin_cases a b :=
  let H := fresh "Hmin" in
  destruct (Q.min_spec a b) as [[? H] | [? H]]; rewrite H.

Lemma clampedProgress_spec (p : Q) : clampedProgress p == clamp p 0 1.
Proof.
  unfold clampedProgress, clamp, Math_max, Math_min.
  qle_cases (Qle_bool p 0) E0; qle_cases (Qle_bool 1 p) E1;
    qmin_cases 1 p; match goal with |- Qmax ?a ?b == _ => qmax_cases a b end; lra.
Qed.

Lemma clampedProgress_range (p : Q) : 0 <= clampedProgress p <= 1.
Proof.
  rewrite clampedProgress_spec. unfold clamp.
  qle_cases (Qle_bool p 0) E0; qle_cases (Qle_bool 1 p) E1; lra.
Qed.

#[export] Instance clampedProgress_proper : Proper (Qeq ==> Qeq) clampedProgress.
Proof.
  intros p q Hpq. unfold clampedProgress, Math_max, Math_min.
  now rewrite Hpq.
Qed.

Lemma clamp_inside (p : Q) : 0 <= p <= 1 -> clamp p 0 1 == p.
Proof.
  intros [H0 H1]. unfold clamp.
  qle_cases (Qle_bool p 0) E0; qle_cases (Qle_bool 1 p) E1; lra.
Qed.

Lemma clamp_below (p : Q) : p < 0 -> clamp p 0 1 == 0.
Proof.
  intros H. unfold clamp. qle_cases (Qle_bool p 0) E0; [reflexivity | lra].
Qed.

Lemma clamp_above (p : Q) : 1 < p -> clamp p 0 1 == 1.
Proof.
  intros H. unfold clamp.
  qle_cases (Qle_bool p 0) E0; [lra |].
  qle_cases (Qle_bool 1 p) E1; [reflexivity | lra].
Qed.

(* ================================================================== *)
(** ** Timed transitions *)

Lemma timing_at_done (from : Q) (t : Timing) (elapsed : Q) :
  duration (config t) <= elapsed -> timing_at from t elapsed = toValue t.
Proof.
  intros H. unfold timing_at.
  apply Qle_bool_iff in H. now rewrite H.
Qed.

Lemma settling_read (target d : Q) (sv : SharedValue) (dt : Q) :
  settling target d sv -> 0 <= dt -> d <= dt ->
  read (advance dt sv) == target.
Proof.
  destruct sv as [v | [t | t n rv] from el]; simpl; intros H H0 Hd.
  - exact H.
  - destruct H as (Ht & Hdur & Hel).
    rewrite timing_at_done; [exact Ht | lra].
  - contradiction.
Qed.

Lemma settling_advance (target d : Q) (sv : SharedValue) (dt : Q) :
  0 <= dt -> settling target d sv -> settling target d (advance dt sv).
Proof.
  destruct sv as [v | [t | t n rv] from el]; simpl; intros H0 H; auto.
  destruct H as (Ht & Hdur & Hel). repeat split; auto. lra.
Qed.

Lemma settling_proper (target target' d d' : Q) (sv : SharedValue) :
  target == target' -> d == d' -> settling target d sv -> settling target' d' sv.
Proof.
  intros Ht Hd.
  destruct sv as [v | [t | t n rv] from el]; simpl; auto.
  - intros H. now rewrite H.
  - intros (H1 & H2 & H3). repeat split; auto; lra.
Qed.

Lemma rests_at_read (v : Q) (sv : SharedValue) (dt : Q) :
  rests_at v sv -> rests_at v (advance dt sv) /\ read (advance dt sv) == v.
Proof.
  destruct sv; simpl; [auto | contradiction].
Qed.

(* ================================================================== *)
(** ** The progress effect keeps the clamped progress as its target *)

Lemma same_number_eq (a b : Q) : same_number a b = true -> a == b.
Proof. apply Qeq_bool_iff. Qed.

(** Assigning a timing to a shared value that only timings have driven
    leaves it settling towards the new target, whether the timing starts
    afresh, continues the running one or is not started at all. *)
Lemma settling_animate (target d : Q) (t : Timing) (sv : SharedValue) :
  settling target d sv ->
  settling (toValue t) (duration (config t)) (animate (once t) sv).
Proof.
  intros H. unfold animate.
  destruct (same_number (read sv) (toValue t)) eqn:Esame.
  - simpl. now apply same_number_eq.
  - destruct sv as [v | [t' | t' n rv] from el]; simpl in H |- *.
    + repeat split; try reflexivity; lra.
    + destruct H as (_ & _ & Hel).
      destruct (_ && _)%bool; simpl; repeat split; try reflexivity; lra.
    + contradiction.
Qed.

Lemma circle_progressEffect_settling (c : Circle.Config) (sv : SharedValue)
      (target d : Q) :
  settling target d sv ->
  settling (clampedProgress (Circle.c_progress c)) (Circle.c_animationDuration c)
           (Circle.progressEffect c sv).
Proof.
  intros H. unfold Circle.progressEffect.
  destruct (_ && _)%bool.
  - exact (settling_animate target d _ sv H).
  - simpl. reflexivity.
Qed.

Lemma circle_progressDeps_eq (old new : Circle.Config) :
  Circle.progressDeps old new = true ->
  Circle.c_progress old == Circle.c_progress new /\
  Circle.c_animationDuration old == Circle.c_animationDuration new.
Proof.
  unfold Circle.progressDeps. rewrite !andb_true_iff.
  intros (((Hp & _) & Hd) & _). split; now apply same_number_eq.
Qed.

Lemma circle_progress_inv (st : Circle.State) :
  Circle.reachable st ->
  settling (clampedProgress (Circle.c_progress (Circle.props st)))
           (Circle.c_animationDuration (Circle.props st))
           (Circle.progressValue st).
Proof.
  induction 1 as [p | p st Hst IH | dt st Hdt Hst IH]; simpl.
  - apply (circle_progressEffect_settling (Circle.destructure p) _
             (clampedProgress (Circle.c_progress (Circle.destructure p))) 0).
    simpl. reflexivity.
  - destruct (Circle.progressDeps _ _) eqn:Hdeps.
    + apply circle_progressDeps_eq in Hdeps. destruct Hdeps as [Hp Hd].
      eapply settling_proper; [ | exact Hd | exact IH ].
      now rewrite Hp.
    + eapply circle_progressEffect_settling. exact IH.
  - now apply settling_advance.
Qed.

Section BarInvariants.

Variable Easing_ease : Q -> Q.

Lemma bar_progressEffect_settling (c : Bar.Config) (sv : SharedValue)
      (target d : Q) :
  settling target d sv ->
  settling (clampedProgress (Bar.c_progress c)) (Bar.c_animationDuration c)
           (Bar.progressEffect c sv).
Proof.
  intros H. unfold Bar.progressEffect.
  destruct (_ && _)%bool.
  - exact (settling_animate target d _ sv H).
  - simpl. reflexivity.
Qed.

Lemma bar_progressDeps_eq (old new : Bar.Config) :
  Bar.progressDeps old new = true ->
  Bar.c_progress old == Bar.c_progress new /\
  Bar.c_animationDuration old == Bar.c_animationDuration new.
Proof.
  unfold Bar.progressDeps. rewrite !andb_true_iff.
  intros (((Hp & _) & Hd) & _). split; now apply same_number_eq.
Qed.

Lemma bar_progress_inv (st : Bar.State) :
  Bar.reachable Easing_ease st ->
  settling (clampedProgress (Bar.c_progress (Bar.props st)))
           (Bar.c_animationDuration (Bar.props st))
           (Bar.progressValue st).
Proof.
  induction 1 as [p | p st Hst IH | w st Hst IH | dt st Hdt Hst IH]; simpl.
  - apply (bar_progressEffect_settling (Bar.destructure p) _
             (clampedProgress (Bar.c_progress (Bar.destructure p))) 0).
    simpl. reflexivity.
  - destruct (Bar.progressDeps _ _) eqn:Hdeps.
    + apply bar_progressDeps_eq in Hdeps. destruct Hdeps as [Hp Hd].
      eapply settling_proper; [ | exact Hd | exact IH ].
      now rewrite Hp.
    + eapply bar_progressEffect_settling. exact IH.
  - exact IH.
  - now apply settling_advance.
Qed.

End BarInvariants.

(* ================================================================== *)
(** ** Sample evaluations *)

Ltac qdecide :=
  vm_compute;
  match goal with
  | |- _ = _ => reflexivity
  | |- _ -> False => discriminate
  | |- _ =>
      first [ reflexivity | discriminate | intro; discriminate
            | let H := fresh in intro H; apply H; reflexivity ]
  end.

Example clampedProgress_above : clampedProgress 1.5 == 1.
Proof. qdecide. Qed.

Example clampedProgress_below : clampedProgress (-2) == 0.
Proof. qdecide. Qed.

Example clampedProgress_inside : clampedProgress 0.75 == 0.75.
Proof. qdecide. Qed.

Example circle_demo_radius : Circle.radius (Circle.destructure circle_demo) == 46.
Proof. qdecide. Qed.

Example circle_demo_first_frame :
  Circle.dashoffset (Circle.renderSvg (Circle.mount circle_demo))
  == 23 * Math_PI.
Proof. qdecide. Qed.

(* ================================================================== *)
(** ** The progress fraction *)

Lemma circle_fraction_at_rest (st : Circle.State) (dt : Q) :
  Circle.reachable st -> 0 <= dt ->
  Circle.c_animationDuration (Circle.props st) <= dt ->
  read (Circle.progressValue (Circle.frame dt st))
  == clampedProgress (Circle.c_progress (Circle.props st)).
Proof.
  intros Hst H0 Hd. simpl.
  eapply settling_read; eauto using circle_progress_inv.
Qed.

Lemma bar_fraction_at_rest (ease : Q -> Q) (st : Bar.State) (dt : Q) :
  Bar.reachable ease st -> 0 <= dt ->
  Bar.c_animationDuration (Bar.props st) <= dt ->
  read (Bar.progressValue (Bar.frame dt st))
  == clampedProgress (Bar.c_progress (Bar.props st)).
Proof.
  intros Hst H0 Hd. simpl.
  eapply settling_read; eauto using bar_progress_inv.
Qed.

(** At mount the progress shared value starts at the clamped progress, so
    the transition the effect starts has nowhere to go. *)
Lemma circle_fraction_after_mount (p : Circle.Props) (dt : Q) :
  read (Circle.progressValue (Circle.frame dt (Circle.mount p)))
  == clampedProgress (Circle.c_progress (Circle.destructure p)).
Proof.
  cbn [Circle.frame Circle.mount Circle.progressValue].
  unfold Circle.progressEffect.
  destruct (_ && _)%bool; [| reflexivity].
  unfold animate. cbn [read useSharedValue toValue].
  unfold same_number. rewrite (proj2 (Qeq_bool_iff _ _) (Qeq_refl _)).
  reflexivity.
Qed.

Lemma bar_fraction_after_mount (ease : Q -> Q) (p : Bar.Props) (dt : Q) :
  read (Bar.progressValue (Bar.frame dt (Bar.mount ease p)))
  == clampedProgress (Bar.c_progress (Bar.destructure p)).
Proof.
  cbn [Bar.frame Bar.mount Bar.progressValue].
  unfold Bar.progressEffect.
  destruct (_ && _)%bool; [| reflexivity].
  unfold animate. cbn [read useSharedValue toValue].
  unfold same_number. rewrite (proj2 (Qeq_bool_iff _ _) (Qeq_refl _)).
  reflexivity.
Qed.

Lemma clampedProgress_number_rational (x : Q) :
  clampedProgress_number (JSNumber.Rational x) = JSNumber.Rational (clampedProgress x).
Proof. reflexivity. Qed.

(** C1 (amended).  [Math.max(0, Math.min(1, p))] is the mathematical clamp
    of [p] to [[0,1]] for every number [p] other than [NaN], the
    infinities included: a fraction in [[0,1]], 0 below the interval, 1
    above it, [p] inside; for [NaN] it is [NaN].  That expression is the
    initial value and the target of the progress shared value of both
    components.  For the props that are rationals, the progress shared
    value holds the clamp of the [progress] prop at every frame after
    mount, and in every reachable state it holds the clamp of the current
    [progress] prop once its transition of [animationDuration] ms has run.
    No input is rejected: [mount] and [render] are total. *)
Theorem progress_fraction_is_clamped_unless_NaN :
  (forall p, p <> JSNumber.NaN ->
     exists q, clampedProgress_number p = JSNumber.Rational q /\
               0 <= q <= 1 /\
               exists c, clamp_unit p = Some c /\ q == c) /\
  clampedProgress_number JSNumber.NaN = JSNumber.NaN /\
  (forall p : Circle.Props,
     progressTarget (option_map JSNumber.Rational (Circle.progress p))
     = JSNumber.Rational (clampedProgress (Circle.c_progress (Circle.destructure p)))) /\
  (forall p : Bar.Props,
     progressTarget (option_map JSNumber.Rational (Bar.progress p))
     = JSNumber.Rational (clampedProgress (Bar.c_progress (Bar.destructure p)))) /\
  (forall x, clampedProgress x == clamp x 0 1) /\
  (forall x, x < 0 -> clampedProgress x == 0) /\
  (forall x, 1 < x -> clampedProgress x == 1) /\
  (forall x, 0 <= x <= 1 -> clampedProgress x == x) /\
  (forall st dt,
      Circle.reachable st -> 0 <= dt ->
      Circle.c_animationDuration (Circle.props st) <= dt ->
      read (Circle.progressValue (Circle.frame dt st))
      == clamp (Circle.c_progress (Circle.props st)) 0 1) /\
  (forall ease st dt,
      Bar.reachable ease st -> 0 <= dt ->
      Bar.c_animationDuration (Bar.props st) <= dt ->
      read (Bar.progressValue (Bar.frame dt st))
      == clamp (Bar.c_progress (Bar.props st)) 0 1) /\
  (forall p dt,
      read (Circle.progressValue (Circle.frame dt (Circle.mount p)))
      == clamp (Circle.c_progress (Circle.destructure p)) 0 1) /\
  (forall ease p dt,
      read (Bar.progressValue (Bar.frame dt (Bar.mount ease p)))
      == clamp (Bar.c_progress (Bar.destructure p)) 0 1).
Proof.
  split.
  { intros [| | x |] Hp.
    - contradiction.
    - exists 0. split; [reflexivity |]. split; [lra |].
      exists 0. split; reflexivity.
    - exists (clampedProgress x).
      split; [apply clampedProgress_number_rational |].
      split; [apply clampedProgress_range |].
      exists (clamp x 0 1). split; [reflexivity | apply clampedProgress_spec].
    - exists 1. split; [reflexivity |]. split; [lra |].
      exists 1. split; reflexivity. }
  split; [reflexivity |].
  split; [intros p; destruct p as [[x |] ? ? ? ? ? ? ?]; reflexivity |].
  split; [intros p; destruct p as [[x |] ? ? ? ? ? ? ? ? ? ? ?]; reflexivity |].
  split; [exact clampedProgress_spec |].
  split; [intros p H; rewrite clampedProgress_spec; now apply clamp_below |].
  split; [intros p H; rewrite clampedProgress_spec; now apply clamp_above |].
  split; [intros p H; rewrite clampedProgress_spec; now apply clamp_inside |].
  split.
  { intros st dt Hst H0 Hd.
    rewrite circle_fraction_at_rest by assumption. apply clampedProgress_spec. }
  split.
  { intros ease st dt Hst H0 Hd.
    rewrite (bar_fraction_at_rest ease) by assumption. apply clampedProgress_spec. }
  split.
  { intros p dt. rewrite circle_fraction_after_mount. apply clampedProgress_spec. }
  intros ease p dt. rewrite bar_fraction_after_mount. apply clampedProgress_spec.
Qed.

Lemma progress_fraction_is_clamped_unless_NaN_witness :
  JSNumber.Infinity <> JSNumber.NaN /\
  exists q, clampedProgress_number JSNumber.Infinity = JSNumber.Rational q /\
            0 <= q <= 1 /\
            exists c, clamp_unit JSNumber.Infinity = Some c /\ q == c.
Proof.
  assert (H : JSNumber.Infinity <> JSNumber.NaN) by discriminate.
  split; [exact H |].
  exact (proj1 progress_fraction_is_clamped_unless_NaN JSNumber.Infinity H).
Defined.

(** C1 as stated fails for [NaN]: the expression both components clamp
    the progress with gives [NaN], which is no fraction in [[0,1]] and no
    clamp of anything, so a [NaN] progress is not corrected. *)
Lemma NaN_progress_is_not_clamped :
  progressTarget (Some JSNumber.NaN) = JSNumber.NaN /\
  clamp_unit JSNumber.NaN = None /\
  ~ (exists q, progressTarget (Some JSNumber.NaN) = JSNumber.Rational q /\ 0 <= q <= 1).
Proof.
  split; [reflexivity |]. split; [reflexivity |].
  intros (q & H & _). discriminate H.
Qed.

(* ================================================================== *)
(** ** Geometry of the circle *)

Lemma circle_dashoffset_at_rest (st : Circle.State) (dt : Q) :
  Circle.reachable st ->
  Circle.c_indeterminate (Circle.props st) = false ->
  0 <= dt ->
  Circle.c_animationDuration (Circle.props st) <= dt ->
  Circle.dashoffset (Circle.renderSvg (Circle.frame dt st))
  == (if Circle.isCounterClockwise (Circle.props st) then -1 else 1)
     * (Circle.circumference (Circle.props st)
        * (1 - clampedProgress (Circle.c_progress (Circle.props st)))).
Proof.
  intros Hst Hind H0 Hd.
  pose proof (circle_fraction_at_rest st dt Hst H0 Hd) as Hrest.
  unfold Circle.renderSvg, Circle.animatedProps.
  change (Circle.props (Circle.frame dt st)) with (Circle.props st).
  rewrite Hind.
  cbn [Circle.strokeDashoffset Circle.determinateProps Circle.dashoffset].
  change (Circle.props (Circle.frame dt st)) with (Circle.props st).
  destruct (Circle.isCounterClockwise (Circle.props st)); rewrite Hrest; ring.
Qed.

(** C2.  In every reachable determinate state of the circle, once the
    progress transition has run, the stroke dash-offset handed to the arc
    is [circumference * (1 - clamp progress)] when the direction is
    clockwise and the negation of that value when it is counter-clockwise. *)
Theorem determinate_dash_offset (st : Circle.State) (dt : Q) :
  Circle.reachable st ->
  Circle.c_indeterminate (Circle.props st) = false ->
  0 <= dt ->
  Circle.c_animationDuration (Circle.props st) <= dt ->
  let c := Circle.props st in
  let full := Circle.circumference c * (1 - clamp (Circle.c_progress c) 0 1) in
  Circle.dashoffset (Circle.renderSvg (Circle.frame dt st))
  == match Circle.c_direction c with
     | Circle.clockwise => full
     | Circle.counter_clockwise => - full
     end.
Proof.
  intros Hst Hind H0 Hd c full.
  rewrite circle_dashoffset_at_rest by assumption.
  unfold Circle.isCounterClockwise, full, c.
  rewrite clampedProgress_spec.
  destruct (Circle.c_direction (Circle.props st)); ring.
Qed.

Lemma determinate_dash_offset_witness :
  Circle.c_direction (Circle.props (Circle.mount circle_overdriven)) = Circle.counter_clockwise /\
  Circle.dashoffset (Circle.renderSvg (Circle.frame 300 (Circle.mount circle_overdriven)))
  == - (Circle.circumference (Circle.props (Circle.mount circle_overdriven))
        * (1 - clamp 1.5 0 1)).
Proof.
  split; [reflexivity |].
  apply (determinate_dash_offset (Circle.mount circle_overdriven) 300).
  - constructor.
  - reflexivity.
  - qdecide.
  - qdecide.
Defined.

(** C4.  Whenever the circle is indeterminate, whatever its size, thickness,
    progress prop and progress shared value, the dash pattern of the arc
    is (arc, gap) with arc = 25% and gap = 75% of the circumference. *)
Theorem indeterminate_arc_is_quarter (st : Circle.State) :
  Circle.c_indeterminate (Circle.props st) = true ->
  exists arc gap,
    Circle.dasharray (Circle.renderSvg st) = Some (arc, gap) /\
    arc == (25 # 100) * Circle.circumference (Circle.props st) /\
    gap == (75 # 100) * Circle.circumference (Circle.props st) /\
    arc + gap == Circle.circumference (Circle.props st) /\
    Circle.circumference (Circle.props st)
    == 2 * Math_PI * ((Circle.c_size (Circle.props st)
                        - Circle.c_thickness (Circle.props st)) / 2).
Proof.
  intros Hind.
  unfold Circle.renderSvg, Circle.animatedProps. rewrite Hind.
  cbn [Circle.strokeDasharray Circle.indeterminateProps Circle.dasharray].
  eexists _, _. split; [reflexivity |].
  unfold Circle.circumference, Circle.radius.
  repeat split; try reflexivity; ring.
Qed.

Lemma indeterminate_arc_is_quarter_witness :
  exists arc gap,
    Circle.dasharray (Circle.renderSvg (Circle.mount circle_spinner)) = Some (arc, gap) /\
    arc == (25 # 100) * Circle.circumference (Circle.props (Circle.mount circle_spinner)) /\
    gap == (75 # 100) * Circle.circumference (Circle.props (Circle.mount circle_spinner)) /\
    arc + gap == Circle.circumference (Circle.props (Circle.mount circle_spinner)) /\
    Circle.circumference (Circle.props (Circle.mount circle_spinner))
    == 2 * Math_PI * ((64 - 4) / 2).
Proof.
  apply (indeterminate_arc_is_quarter (Circle.mount circle_spinner)).
  reflexivity.
Defined.

(** C9.  With progress 0.75, size 100 and thickness 8 (direction and
    animation left at their defaults): the radius is 46, the circumference
    is [2 * Math.PI * 46], which rounds to 289.03, and at rest the
    dash-offset is a quarter of the circumference, which rounds to 72.26.
    [Math.PI] agrees with pi to fifteen digits. *)
Theorem circle_end_to_end :
  let c := Circle.destructure circle_demo in
  Circle.c_direction c = Circle.clockwise /\
  Circle.radius c == 46 /\
  Circle.circumference c == 2 * Math_PI * 46 /\
  3.141592653589793 <= Math_PI < 3.141592653589794 /\
  289.025 < Circle.circumference c < 289.035 /\
  forall dt, 300 <= dt ->
    let offset := Circle.dashoffset (Circle.renderSvg (Circle.frame dt (Circle.mount circle_demo))) in
    offset == Circle.circumference c * 0.25 /\
    72.255 < offset < 72.265.
Proof.
  intros c.
  split; [reflexivity |].
  split; [qdecide |].
  split; [qdecide |].
  split; [split; qdecide |].
  split; [split; qdecide |].
  intros dt Hdt offset.
  assert (Hoff : offset == Circle.circumference c * 0.25).
  { unfold offset. rewrite circle_dashoffset_at_rest.
    - vm_compute. reflexivity.
    - constructor.
    - reflexivity.
    - apply Qle_trans with 300; [qdecide | exact Hdt].
    - exact Hdt. }
  split; [exact Hoff |].
  rewrite Hoff. split; qdecide.
Qed.

Lemma circle_end_to_end_witness :
  300 <= 300 /\
  Circle.dashoffset (Circle.renderSvg (Circle.frame 300 (Circle.mount circle_demo)))
  == Circle.circumference (Circle.destructure circle_demo) * 0.25.
Proof.
  assert (H : 300 <= 300) by qdecide.
  split; [exact H |].
  exact (proj1 (proj2 (proj2 (proj2 (proj2 (proj2 circle_end_to_end)))) 300 H)).
Defined.

(* ================================================================== *)
(** ** The container width of the bar *)

Lemma truthy_some (w : Q) : truthy (Some w) = true <-> ~ w == 0.
Proof.
  simpl. rewrite negb_true_iff. split.
  - intros H. now apply Qeq_bool_neq.
  - intros H. destruct (Qeq_bool w 0) eqn:E; [| reflexivity].
    apply Qeq_bool_iff in E. contradiction.
Qed.

Lemma same_width_some (a b : option Q) (w : Q) :
  same_width a b = true -> b = Some w -> exists w', a = Some w' /\ w' == w.
Proof.
  destruct a as [x |], b as [y |]; simpl; try discriminate.
  intros H [= ->]. exists x. split; [reflexivity | now apply Qeq_bool_iff].
Qed.

Lemma widthEffect_inv (c : Bar.Config) (v : Q) :
  exists v', Bar.widthEffect c (Idle v) = Idle v' /\
             forall w, Bar.c_width c = Some w -> ~ w == 0 -> v' == w.
Proof.
  unfold Bar.widthEffect.
  destruct (Bar.c_width c) as [w0 |] eqn:Hw.
  - destruct (truthy (Some w0)) eqn:Ht.
    + exists w0. split; [reflexivity |]. now intros w [= ->] _.
    + exists v. split; [reflexivity |]. intros w [= ->] Hnz.
      apply truthy_some in Hnz. congruence.
  - exists v. split; [reflexivity |]. discriminate.
Qed.

Lemma bar_width_inv (ease : Q -> Q) (st : Bar.State) :
  Bar.reachable ease st -> width_inv st.
Proof.
  induction 1 as [p | p st Hst IH | m st Hst IH | dt st Hdt Hst IH]; unfold width_inv; simpl.
  - apply widthEffect_inv.
  - destruct IH as (v & Hv & Hexp). rewrite Hv.
    destruct (Bar.widthDeps _ _) eqn:Hdeps.
    + exists v. split; [reflexivity |]. intros w Hw Hnz.
      destruct (same_width_some _ _ _ Hdeps Hw) as (w' & Hw' & Heq).
      rewrite <- Heq. apply Hexp; [exact Hw' |]. now rewrite Heq.
    + apply widthEffect_inv.
  - destruct IH as (v & Hv & Hexp). rewrite Hv.
    destruct (truthy (Bar.c_width (Bar.props st))) eqn:Ht; simpl.
    + exists v. now split.
    + exists m. split; [reflexivity |]. intros w Hw Hnz.
      rewrite Hw in Ht. apply truthy_some in Hnz. congruence.
  - destruct IH as (v & Hv & Hexp). rewrite Hv. simpl. exists v. now split.
Qed.

Lemma bar_width_frame (ease : Q -> Q) (st : Bar.State) (dt : Q) :
  Bar.reachable ease st ->
  read (Bar.containerWidth (Bar.frame dt st)) = read (Bar.containerWidth st).
Proof.
  intros Hst. destruct (bar_width_inv ease st Hst) as (v & Hv & _).
  simpl. now rewrite Hv.
Qed.

Lemma bar_width_at_rest (ease : Q -> Q) (st : Bar.State) (dt : Q) :
  Bar.reachable ease st ->
  Bar.c_indeterminate (Bar.props st) = false ->
  0 <= dt ->
  Bar.c_animationDuration (Bar.props st) <= dt ->
  Bar.barStyle (Bar.frame dt st) = Bar.determinateStyle (Bar.frame dt st) /\
  Bar.bs_width (Bar.barStyle (Bar.frame dt st))
  == read (Bar.containerWidth st) * clampedProgress (Bar.c_progress (Bar.props st)).
Proof.
  intros Hst Hind H0 Hd.
  assert (Hstyle : Bar.barStyle (Bar.frame dt st) = Bar.determinateStyle (Bar.frame dt st)).
  { unfold Bar.barStyle. change (Bar.props (Bar.frame dt st)) with (Bar.props st).
    now rewrite Hind. }
  split; [exact Hstyle |].
  rewrite Hstyle. unfold Bar.determinateStyle. cbn [Bar.bs_width].
  rewrite (bar_width_frame ease) by assumption.
  rewrite (bar_fraction_at_rest ease) by assumption.
  reflexivity.
Qed.

(** C3.  In every reachable determinate state of the bar, for every
    container width [w] the width shared value holds, the filled segment
    is [w * clamp progress] wide once the progress transition has run (and
    carries no translation).  In particular a bar mounted with progress
    0.5, height 4 and no width, then measured at 200, is filled to 100 at
    rest. *)
Theorem determinate_bar_width :
  (forall ease st dt w,
      Bar.reachable ease st ->
      Bar.c_indeterminate (Bar.props st) = false ->
      read (Bar.containerWidth st) == w ->
      0 <= dt ->
      Bar.c_animationDuration (Bar.props st) <= dt ->
      Bar.bs_width (Bar.barStyle (Bar.frame dt st))
      == w * clamp (Bar.c_progress (Bar.props st)) 0 1 /\
      Bar.bs_translateX (Bar.barStyle (Bar.frame dt st)) = None) /\
  (forall ease dt,
      300 <= dt ->
      let st := Bar.handleLayout 200 (Bar.mount ease bar_demo) in
      read (Bar.containerWidth st) == 200 /\
      Bar.bs_width (Bar.barStyle (Bar.frame dt st)) == 100).
Proof.
  split.
  - intros ease st dt w Hst Hind Hw H0 Hd.
    destruct (bar_width_at_rest ease st dt Hst Hind H0 Hd) as [Hstyle Hwidth].
    split.
    + rewrite Hwidth, Hw, clampedProgress_spec. reflexivity.
    + rewrite Hstyle. reflexivity.
  - intros ease dt Hdt st.
    split; [reflexivity |].
    assert (Hst : Bar.reachable ease st) by (apply Bar.reach_layout, Bar.reach_mount).
    destruct (bar_width_at_rest ease st dt Hst) as [_ Hwidth].
    + reflexivity.
    + apply Qle_trans with 300; [qdecide | exact Hdt].
    + exact Hdt.
    + rewrite Hwidth. qdecide.
Qed.

Lemma determinate_bar_width_witness :
  let st := Bar.mount ease_standin bar_fixed in
  Bar.reachable ease_standin st /\
  Bar.c_indeterminate (Bar.props st) = false /\
  read (Bar.containerWidth st) == 120 /\
  Bar.bs_width (Bar.barStyle (Bar.frame 300 st)) == 120 * clamp 0.25 0 1.
Proof.
  intros st.
  assert (H1 : Bar.reachable ease_standin st) by constructor.
  assert (H2 : Bar.c_indeterminate (Bar.props st) = false) by reflexivity.
  assert (H3 : read (Bar.containerWidth st) == 120) by reflexivity.
  assert (H4 : 0 <= 300) by qdecide.
  assert (H5 : Bar.c_animationDuration (Bar.props st) <= 300) by qdecide.
  split; [exact H1 |]. split; [exact H2 |]. split; [exact H3 |].
  exact (proj1 (proj1 determinate_bar_width ease_standin st 300 120 H1 H2 H3 H4 H5)).
Defined.

(** C10.  For every props of the bar, the border radius of the filled
    segment is [max(0, borderRadius - borderWidth)]: the difference when
    the border is no wider than the radius, 0 when it is wider, and so
    never negative. *)
Theorem inner_border_radius (p : Bar.Props) :
  let c := Bar.destructure p in
  let inner := Bar.pb_borderRadius (Bar.progressBarStyle c) in
  inner == Qmax 0 (Bar.c_borderRadius c - Bar.c_borderWidth c) /\
  0 <= inner /\
  (Bar.c_borderWidth c <= Bar.c_borderRadius c ->
   inner == Bar.c_borderRadius c - Bar.c_borderWidth c) /\
  (Bar.c_borderRadius c < Bar.c_borderWidth c -> inner == 0).
Proof.
  intros c inner. unfold inner, Bar.progressBarStyle, Math_max. cbn [Bar.pb_borderRadius].
  split; [reflexivity |].
  qmax_cases 0 (Bar.c_borderRadius c - Bar.c_borderWidth c);
    repeat split; intros; lra.
Qed.

Lemma inner_border_radius_witness :
  Bar.c_borderRadius (Bar.destructure bar_thick_border)
  < Bar.c_borderWidth (Bar.destructure bar_thick_border) /\
  Bar.pb_borderRadius (Bar.progressBarStyle (Bar.destructure bar_thick_border)) == 0.
Proof.
  assert (H : Bar.c_borderRadius (Bar.destructure bar_thick_border)
              < Bar.c_borderWidth (Bar.destructure bar_thick_border)) by qdecide.
  split; [exact H |].
  exact (proj2 (proj2 (proj2 (inner_border_radius bar_thick_border))) H).
Defined.

(* ================================================================== *)
(** ** The indeterminate segment of the bar *)

Lemma interpolate_unit (x m : Q) : interpolate x (0, 1) (0, m) == x * m.
Proof.
  unfold interpolate.
  replace (Qeq_bool (1 - 0) 0) with false by reflexivity.
  field.
Qed.

Lemma indeterminate_segment (st : Bar.State) :
  Bar.bs_width (Bar.indeterminateStyle st) == 0.3 * read (Bar.containerWidth st) /\
  exists x,
    Bar.bs_translateX (Bar.indeterminateStyle st) = Some x /\
    x == read (Bar.indeterminateValue st)
         * (read (Bar.containerWidth st) - 0.3 * read (Bar.containerWidth st)).
Proof.
  unfold Bar.indeterminateStyle. cbn [Bar.bs_width Bar.bs_translateX].
  split; [ring |].
  eexists. split; [reflexivity |].
  rewrite interpolate_unit. ring.
Qed.

(** C5.  While the bar is indeterminate, for every container width [w]
    the filled segment is exactly [0.3 * w] wide and its offset is
    [phase * (w - 0.3 * w)]: 0 at phase 0, [w - 0.3 * w] at phase 1, and
    for every phase in [[0, 1]] between 0 and [w - 0.3 * w], which for a
    width that is not negative is the interval [[0, w - 0.3 * w]]. *)
Theorem indeterminate_bar_segment (st : Bar.State) :
  Bar.c_indeterminate (Bar.props st) = true ->
  let w := read (Bar.containerWidth st) in
  let phase := read (Bar.indeterminateValue st) in
  Bar.bs_width (Bar.barStyle st) == 0.3 * w /\
  exists x,
    Bar.bs_translateX (Bar.barStyle st) = Some x /\
    x == phase * (w - 0.3 * w) /\
    (phase == 0 -> x == 0) /\
    (phase == 1 -> x == w - 0.3 * w) /\
    (0 <= phase <= 1 -> Qmin 0 (w - 0.3 * w) <= x <= Qmax 0 (w - 0.3 * w)) /\
    (0 <= w -> 0 <= phase <= 1 -> 0 <= x <= w - 0.3 * w).
Proof.
  intros Hind w phase.
  unfold Bar.barStyle. rewrite Hind.
  destruct (indeterminate_segment st) as (Hw & x & Hx & Hval).
  split; [exact Hw |].
  exists x. split; [exact Hx |].
  fold w phase in Hval.
  split; [exact Hval |].
  split; [intros H; rewrite Hval, H; ring |].
  split; [intros H; rewrite Hval, H; ring |].
  assert (Hpos : 0 <= w -> 0 <= phase <= 1 -> 0 <= x <= w - 0.3 * w).
  { intros Hw0 [Hp0 Hp1]. rewrite Hval. split; nra. }
  split; [| exact Hpos].
  intros [Hp0 Hp1].
  destruct (Qlt_le_dec w 0) as [Hneg | Hnn].
  - assert (Hx0 : w - 0.3 * w <= x <= 0) by (rewrite Hval; split; nra).
    rewrite (Q.min_r 0 (w - 0.3 * w)) by lra.
    rewrite (Q.max_l 0 (w - 0.3 * w)) by lra.
    exact Hx0.
  - specialize (Hpos Hnn (conj Hp0 Hp1)).
    rewrite (Q.min_l 0 (w - 0.3 * w)) by lra.
    rewrite (Q.max_r 0 (w - 0.3 * w)) by lra.
    exact Hpos.
Qed.

Lemma indeterminate_bar_segment_witness :
  let st := Bar.mount ease_standin bar_looping in
  Bar.c_indeterminate (Bar.props st) = true /\
  Bar.bs_width (Bar.barStyle st) == 0.3 * read (Bar.containerWidth st).
Proof.
  intros st.
  assert (H : Bar.c_indeterminate (Bar.props st) = true) by reflexivity.
  split; [exact H |].
  exact (proj1 (indeterminate_bar_segment st H)).
Defined.

(* ================================================================== *)
(** ** Width resolution *)

(** C8 (amended).  In every reachable state of the bar: when the [width]
    prop is a non-zero number, the width shared value holds it, the
    container is styled with it, and layout events are ignored; when the
    prop is [null] or 0, the container is styled 100% wide and every layout
    event stores the measured width, which then stays until the next
    layout event. *)
Theorem width_resolution (ease : Q -> Q) (st : Bar.State) :
  Bar.reachable ease st ->
  (forall w, Bar.c_width (Bar.props st) = Some w -> ~ w == 0 ->
     read (Bar.containerWidth st) == w /\
     Bar.cs_width (Bar.containerStyle (Bar.props st)) = Bar.px w /\
     Bar.bs_width (Bar.indeterminateStyle st) == 0.3 * w /\
     Bar.bs_width (Bar.determinateStyle st) == w * read (Bar.progressValue st) /\
     (forall m, Bar.containerWidth (Bar.handleLayout m st) = Bar.containerWidth st) /\
     (forall dt, read (Bar.containerWidth (Bar.frame dt st)) == w)) /\
  (truthy (Bar.c_width (Bar.props st)) = false ->
     Bar.cs_width (Bar.containerStyle (Bar.props st)) = Bar.percent 100 /\
     forall m,
       read (Bar.containerWidth (Bar.handleLayout m st)) = m /\
       Bar.bs_width (Bar.indeterminateStyle (Bar.handleLayout m st)) == 0.3 * m /\
       (forall dt, read (Bar.containerWidth (Bar.frame dt (Bar.handleLayout m st))) = m) /\
       (forall m', read (Bar.containerWidth (Bar.handleLayout m' (Bar.handleLayout m st))) = m')).
Proof.
  intros Hst. pose proof (bar_width_inv ease st Hst) as (v & Hv & Hexp).
  split.
  - intros w Hw Hnz.
    assert (Ht : truthy (Bar.c_width (Bar.props st)) = true)
      by (rewrite Hw; now apply truthy_some).
    assert (Hread : read (Bar.containerWidth st) == w)
      by (rewrite Hv; simpl; now apply Hexp).
    split; [exact Hread |].
    split.
    { unfold Bar.containerStyle, or_else. cbn [Bar.cs_width].
      rewrite Hw in *. now rewrite Ht. }
    split.
    { destruct (indeterminate_segment st) as [H _]. now rewrite H, Hread. }
    split.
    { unfold Bar.determinateStyle. cbn [Bar.bs_width]. now rewrite Hread. }
    split.
    { intros m. unfold Bar.handleLayout. cbn [Bar.containerWidth].
      now rewrite Ht. }
    intros dt. rewrite (bar_width_frame ease) by assumption. exact Hread.
  - intros Hf.
    split.
    { unfold Bar.containerStyle, or_else. cbn [Bar.cs_width].
      destruct (Bar.c_width (Bar.props st)); [now rewrite Hf | reflexivity]. }
    intros m.
    assert (Hm : Bar.containerWidth (Bar.handleLayout m st) = Idle m).
    { unfold Bar.handleLayout. cbn [Bar.containerWidth]. now rewrite Hf. }
    split; [now rewrite Hm |].
    split.
    { destruct (indeterminate_segment (Bar.handleLayout m st)) as [H _].
      rewrite H, Hm. reflexivity. }
    split.
    { intros dt. cbn [Bar.frame Bar.containerWidth]. now rewrite Hm. }
    intros m'. unfold Bar.handleLayout. cbn [Bar.containerWidth Bar.props].
    now rewrite Hf.
Qed.

Lemma width_resolution_witness :
  let st := Bar.handleLayout 333 (Bar.mount ease_standin bar_fixed) in
  Bar.reachable ease_standin st /\
  Bar.c_width (Bar.props st) = Some 120 /\
  ~ 120 == 0 /\
  read (Bar.containerWidth st) == 120.
Proof.
  intros st.
  assert (H1 : Bar.reachable ease_standin st) by (apply Bar.reach_layout, Bar.reach_mount).
  assert (H2 : Bar.c_width (Bar.props st) = Some 120) by reflexivity.
  assert (H3 : ~ 120 == 0) by qdecide.
  split; [exact H1 |]. split; [exact H2 |]. split; [exact H3 |].
  exact (proj1 (proj1 (width_resolution ease_standin st H1) 120 H2 H3)).
Defined.

(** C8 as stated fails for an explicit width of 0: the prop is supplied,
    yet the container is styled 100% wide and the width shared value takes
    the measured 200. *)
Lemma explicit_zero_width_is_measured :
  let st := Bar.handleLayout 200 (Bar.mount ease_standin bar_zero_width) in
  Bar.c_width (Bar.props st) = Some 0 /\
  Bar.cs_width (Bar.containerStyle (Bar.props st)) = Bar.percent 100 /\
  read (Bar.containerWidth st) == 200 /\
  ~ read (Bar.containerWidth st) == 0.
Proof.
  intros st. split; [reflexivity |]. split; [reflexivity |].
  split; qdecide.
Qed.

(* ================================================================== *)
(** ** Easing curves as functions of a number *)

Lemma inOut_proper (f : Q -> Q) :
  Proper (Qeq ==> Qeq) f -> Proper (Qeq ==> Qeq) (Easing.inOut f).
Proof.
  intros Hf x y Hxy. unfold Easing.inOut.
  rewrite (Qleb_comp _ _ (Qeq_refl (1 # 2)) _ _ Hxy).
  destruct (Qle_bool (1 # 2) y).
  - assert (E : f ((1 - x) * 2) == f ((1 - y) * 2)) by (apply Hf; now rewrite Hxy).
    now rewrite E.
  - assert (E : f (x * 2) == f (y * 2)) by (apply Hf; now rewrite Hxy).
    now rewrite E.
Qed.

(* ================================================================== *)
(** ** The looping shared values *)

Lemma repeating_is_running (target d : Q) (e : Q -> Q) (rv : bool) (sv : SharedValue) :
  repeating target d e rv sv -> is_running sv = true.
Proof. destruct sv; simpl; [contradiction | reflexivity]. Qed.

Lemma loop_inv_proper (b : bool) (target d d' : Q) (e : Q -> Q) (rv : bool)
      (sv : SharedValue) :
  d == d' -> loop_inv b target d e rv sv -> loop_inv b target d' e rv sv.
Proof.
  intros Hd. destruct b; simpl; [| auto].
  destruct sv as [v | [t | t n r] from el]; simpl; auto.
  intros (H1 & H2 & H3 & H4 & H5 & H6). repeat split; auto. now rewrite <- Hd.
Qed.

Lemma loop_inv_advance (b : bool) (target d : Q) (e : Q -> Q) (rv : bool)
      (sv : SharedValue) (dt : Q) :
  0 <= dt -> loop_inv b target d e rv sv -> loop_inv b target d e rv (advance dt sv).
Proof.
  intros Hdt. destruct b; simpl.
  - destruct sv as [v | [t | t n r] from el]; simpl; auto.
    intros (H1 & H2 & H3 & H4 & H5 & H6). repeat split; auto. lra.
  - destruct sv; simpl; auto.
Qed.

Lemma spinEffect_inv (c : Circle.Config) (sv : SharedValue) :
  loop_inv (Circle.c_indeterminate c) 360 (Circle.c_spinDuration c) Easing.linear false
           (Circle.spinEffect c sv).
Proof.
  unfold Circle.spinEffect. destruct (Circle.c_indeterminate c); simpl.
  - repeat split; try reflexivity. lra.
  - reflexivity.
Qed.

Lemma circle_spin_inv (st : Circle.State) :
  Circle.reachable st ->
  loop_inv (Circle.c_indeterminate (Circle.props st)) 360
           (Circle.c_spinDuration (Circle.props st)) Easing.linear false
           (Circle.spinRotation st).
Proof.
  induction 1 as [p | p st Hst IH | dt st Hdt Hst IH];
    cbn [Circle.mount Circle.render Circle.frame Circle.props Circle.spinRotation].
  - apply (spinEffect_inv (Circle.destructure p)).
  - destruct (Circle.spinDeps _ _) eqn:Hdeps.
    + unfold Circle.spinDeps in Hdeps. apply andb_true_iff in Hdeps.
      destruct Hdeps as [Hb Hd]. apply eqb_prop in Hb. apply same_number_eq in Hd.
      rewrite <- Hb. eapply loop_inv_proper; eauto.
    + apply (spinEffect_inv (Circle.destructure p)).
  - now apply loop_inv_advance.
Qed.

Section BarLoop.

Variable Easing_ease : Q -> Q.

Lemma indeterminateEffect_inv (c : Bar.Config) (sv : SharedValue) :
  loop_inv (Bar.c_indeterminate c) 1 (Bar.c_indeterminateDuration c)
           (Easing.inOut Easing_ease) true
           (Bar.indeterminateEffect Easing_ease c sv).
Proof.
  unfold Bar.indeterminateEffect. destruct (Bar.c_indeterminate c); simpl.
  - repeat split; try reflexivity. lra.
  - reflexivity.
Qed.

Lemma bar_loop_inv (st : Bar.State) :
  Bar.reachable Easing_ease st ->
  loop_inv (Bar.c_indeterminate (Bar.props st)) 1
           (Bar.c_indeterminateDuration (Bar.props st))
           (Easing.inOut Easing_ease) true
           (Bar.indeterminateValue st).
Proof.
  induction 1 as [p | p st Hst IH | m st Hst IH | dt st Hdt Hst IH];
    cbn [Bar.mount Bar.render Bar.frame Bar.handleLayout Bar.props Bar.indeterminateValue].
  - apply (indeterminateEffect_inv (Bar.destructure p)).
  - destruct (Bar.indeterminateDeps _ _) eqn:Hdeps.
    + unfold Bar.indeterminateDeps in Hdeps. apply andb_true_iff in Hdeps.
      destruct Hdeps as [Hb Hd]. apply eqb_prop in Hb. apply same_number_eq in Hd.
      rewrite <- Hb. eapply loop_inv_proper; eauto.
    + apply (indeterminateEffect_inv (Bar.destructure p)).
  - exact IH.
  - now apply loop_inv_advance.
Qed.

End BarLoop.

(* ================================================================== *)
(** ** Ranges of the animated values *)

Lemma linear_unit : unit_range Easing.linear.
Proof. intros x H. exact H. Qed.

Lemma inOut_unit (f : Q -> Q) : unit_range f -> unit_range (Easing.inOut f).
Proof.
  intros Hf x [H0 H1]. unfold Easing.inOut.
  qle_cases (Qle_bool (1 # 2) x) E.
  - assert (Hr : 0 <= f ((1 - x) * 2) <= 1) by (apply Hf; lra).
    set (y := f ((1 - x) * 2)) in *.
    assert (Ey : y / 2 == (1 # 2) * y) by field.
    rewrite Ey. destruct Hr. split; lra.
  - assert (Hr : 0 <= f (x * 2) <= 1) by (apply Hf; lra).
    set (y := f (x * 2)) in *.
    assert (Ey : y / 2 == (1 # 2) * y) by field.
    rewrite Ey. destruct Hr. split; lra.
Qed.

Lemma quad_unit : unit_range Easing.quad.
Proof. intros x [H0 H1]. unfold Easing.quad. split; nra. Qed.

Lemma default_easing_unit : unit_range default_easing.
Proof. apply inOut_unit, quad_unit. Qed.

Lemma blend_between (lo hi a b e : Q) :
  lo <= a <= hi -> lo <= b <= hi -> 0 <= e <= 1 ->
  lo <= a + (b - a) * e <= hi.
Proof.
  intros [Ha0 Ha1] [Hb0 Hb1] [He0 He1].
  assert (H1 : 0 <= (1 - e) * (a - lo)) by (apply Qmult_le_0_compat; lra).
  assert (H2 : 0 <= e * (b - lo)) by (apply Qmult_le_0_compat; lra).
  assert (H3 : 0 <= (1 - e) * (hi - a)) by (apply Qmult_le_0_compat; lra).
  assert (H4 : 0 <= e * (hi - b)) by (apply Qmult_le_0_compat; lra).
  split; lra.
Qed.

(** A timed transition never leaves the interval its two ends lie in. *)
Lemma timing_at_between (lo hi from : Q) (t : Timing) (elapsed : Q) :
  unit_range (easing (config t)) ->
  0 <= elapsed ->
  lo <= from <= hi -> lo <= toValue t <= hi ->
  lo <= timing_at from t elapsed <= hi.
Proof.
  intros He Hel Hfrom Hto. unfold timing_at.
  qle_cases (Qle_bool (duration (config t)) elapsed) E; [exact Hto |].
  apply blend_between; auto. apply He. split.
  - apply Qle_shift_div_l; lra.
  - apply Qle_shift_div_r; lra.
Qed.

Lemma repeat_local_range (d x : Q) :
  0 < d -> 0 <= x - inject_Z (Qfloor (x / d)) * d < d.
Proof.
  intros Hd.
  pose proof (Qfloor_le (x / d)) as Hlo. pose proof (Qlt_floor (x / d)) as Hhi.
  rewrite inject_Z_plus in Hhi.
  assert (Ex : x == x / d * d) by (field; lra).
  set (k := inject_Z (Qfloor (x / d))) in *. set (q := x / d) in *.
  split.
  - rewrite Ex at 1. nra.
  - rewrite Ex at 1. change (inject_Z 1) with 1 in Hhi. nra.
Qed.

Lemma repeat_at_between (lo hi from : Q) (t : Timing) (n : Z) (rv : bool) (elapsed : Q) :
  unit_range (easing (config t)) ->
  lo <= from <= hi -> lo <= toValue t <= hi ->
  lo <= repeat_at from t n rv elapsed <= hi.
Proof.
  intros He Hfrom Hto. unfold repeat_at.
  qle_cases (Qle_bool (duration (config t)) 0) E; [exact Hto |].
  destruct (_ && _)%bool; [destruct (_ && _)%bool; assumption |].
  assert (Hd : 0 < duration (config t)) by lra.
  pose proof (repeat_local_range _ elapsed Hd) as [Hl0 Hl1].
  destruct (_ && _)%bool; apply timing_at_between; auto.
Qed.

Lemma bounded_read (lo hi : Q) (sv : SharedValue) :
  bounded lo hi sv -> lo <= read sv <= hi.
Proof.
  destruct sv as [v | [t | t n rv] from el]; simpl; auto.
  - intros (Hfrom & Hel & Hto & He). now apply timing_at_between.
  - intros (Hfrom & Hel & Hto & He). now apply repeat_at_between.
Qed.

Lemma bounded_advance (lo hi : Q) (sv : SharedValue) (dt : Q) :
  0 <= dt -> bounded lo hi sv -> bounded lo hi (advance dt sv).
Proof.
  intros Hdt. destruct sv as [v | a from el]; simpl; auto.
  intros (Hfrom & Hel & H). repeat split; try tauto; lra.
Qed.

Lemma bounded_animate (lo hi : Q) (a : Animation) (sv : SharedValue) :
  bounded lo hi sv ->
  match a with
  | once t | withRepeat t _ _ => lo <= toValue t <= hi /\ unit_range (easing (config t))
  end ->
  bounded lo hi (animate a sv).
Proof.
  intros Hsv Ha.
  pose proof (bounded_read _ _ _ Hsv) as Hread.
  assert (Hfresh : bounded lo hi (Running a (read sv) 0)).
  { simpl. split; [exact Hread |]. split; [lra | exact Ha]. }
  unfold animate. destruct a as [t | t n rv]; [| exact Hfresh].
  destruct (same_number (read sv) (toValue t)); [exact Hread |].
  destruct sv as [v | a' from el]; [exact Hfresh |].
  destruct (continues _ _); [| exact Hfresh].
  simpl in Hsv |- *. destruct Hsv as (Hfrom & Hel & _).
  split; [exact Hfrom |]. split; [exact Hel | exact Ha].
Qed.

Lemma bounded_cancel (lo hi : Q) (sv : SharedValue) :
  bounded lo hi sv -> bounded lo hi (cancelAnimation sv).
Proof. intros H. simpl. now apply bounded_read. Qed.

Lemma circle_progressEffect_bounded (c : Circle.Config) (sv : SharedValue) :
  bounded 0 1 sv -> bounded 0 1 (Circle.progressEffect c sv).
Proof.
  intros Hsv. unfold Circle.progressEffect.
  destruct (_ && _)%bool.
  - apply bounded_animate; [exact Hsv |]. simpl.
    split; [apply clampedProgress_range | apply default_easing_unit].
  - simpl. apply clampedProgress_range.
Qed.

Lemma circle_progress_bounded (st : Circle.State) :
  Circle.reachable st -> bounded 0 1 (Circle.progressValue st).
Proof.
  induction 1 as [p | p st Hst IH | dt st Hdt Hst IH];
    cbn [Circle.mount Circle.render Circle.frame Circle.progressValue].
  - apply circle_progressEffect_bounded. simpl. apply clampedProgress_range.
  - destruct (Circle.progressDeps _ _); [exact IH |].
    now apply circle_progressEffect_bounded.
  - now apply bounded_advance.
Qed.

Lemma circle_spin_bounded (st : Circle.State) :
  Circle.reachable st -> bounded 0 360 (Circle.spinRotation st).
Proof.
  assert (Heff : forall c sv, bounded 0 360 sv -> bounded 0 360 (Circle.spinEffect c sv)).
  { intros c sv Hsv. unfold Circle.spinEffect. destruct (Circle.c_indeterminate c).
    - apply bounded_animate; [exact Hsv |]. simpl.
      split; [lra | apply linear_unit].
    - simpl. lra. }
  induction 1 as [p | p st Hst IH | dt st Hdt Hst IH];
    cbn [Circle.mount Circle.render Circle.frame Circle.spinRotation].
  - apply Heff. simpl. lra.
  - destruct (Circle.spinDeps _ _); [exact IH |].
    apply Heff. now apply bounded_cancel.
  - now apply bounded_advance.
Qed.

Section BarRanges.

Variable Easing_ease : Q -> Q.

Lemma bar_progressEffect_bounded (c : Bar.Config) (sv : SharedValue) :
  bounded 0 1 sv -> bounded 0 1 (Bar.progressEffect c sv).
Proof.
  intros Hsv. unfold Bar.progressEffect.
  destruct (_ && _)%bool.
  - apply bounded_animate; [exact Hsv |]. simpl.
    split; [apply clampedProgress_range | apply default_easing_unit].
  - simpl. apply clampedProgress_range.
Qed.

Lemma bar_progress_bounded (st : Bar.State) :
  Bar.reachable Easing_ease st -> bounded 0 1 (Bar.progressValue st).
Proof.
  induction 1 as [p | p st Hst IH | m st Hst IH | dt st Hdt Hst IH];
    cbn [Bar.mount Bar.render Bar.frame Bar.handleLayout Bar.progressValue].
  - apply bar_progressEffect_bounded. simpl. apply clampedProgress_range.
  - destruct (Bar.progressDeps _ _); [exact IH |].
    now apply bar_progressEffect_bounded.
  - exact IH.
  - now apply bounded_advance.
Qed.

Hypothesis ease_unit : unit_range Easing_ease.

Lemma bar_phase_bounded (st : Bar.State) :
  Bar.reachable Easing_ease st -> bounded 0 1 (Bar.indeterminateValue st).
Proof.
  assert (Heff : forall c sv, bounded 0 1 sv ->
                              bounded 0 1 (Bar.indeterminateEffect Easing_ease c sv)).
  { intros c sv Hsv. unfold Bar.indeterminateEffect. destruct (Bar.c_indeterminate c).
    - apply bounded_animate; [exact Hsv |]. simpl.
      split; [lra | now apply inOut_unit].
    - simpl. lra. }
  induction 1 as [p | p st Hst IH | m st Hst IH | dt st Hdt Hst IH];
    cbn [Bar.mount Bar.render Bar.frame Bar.handleLayout Bar.indeterminateValue].
  - apply Heff. simpl. lra.
  - destruct (Bar.indeterminateDeps _ _); [exact IH |].
    apply Heff. now apply bounded_cancel.
  - exact IH.
  - now apply bounded_advance.
Qed.

End BarRanges.

(* ================================================================== *)
(** ** Endless loops, frame by frame *)

Lemma last_cons_default (rest : list Q) (f d : Q) :
  last (f :: rest) d = last rest f.
Proof.
  revert f d. induction rest as [| g rest IH]; intros f d; [reflexivity |].
  change (last (f :: g :: rest) d) with (last (g :: rest) d).
  now rewrite !IH.
Qed.

Section DriverLoop.

Variable t : Timing.
Variable n : Z.
Variable rv : bool.
Variable from t0 : Q.
Hypothesis Hd : 0 < duration (config t).
Hypothesis Hn : (n <= 0)%Z.

Lemma endless_reps (reps : Z) : ((0 <? n)%Z && (n <=? reps)%Z)%bool = false.
Proof.
  assert (E : (0 <? n)%Z = false) by (apply Z.ltb_ge; exact Hn).
  now rewrite E.
Qed.

Lemma driver_start_looping :
  Driver.looping t rv from t0 t0 (Driver.start t n rv from t0).
Proof.
  unfold Driver.start, Driver.repeat_onFrame, Driver.repeat_onStart.
  cbn [Driver.r_finished Driver.r_inner].
  unfold Driver.timing_onFrame, Driver.timing_onStart.
  cbn [Driver.t_startTime Driver.t_toValue Driver.t_startValue].
  qle_cases (Qle_bool (duration (config t)) (t0 - t0)) E; [lra |].
  unfold Driver.looping, Driver.leg_ends.
  cbn [Driver.r_finished Driver.r_inner Driver.r_reps Driver.r_startValue
       Driver.t_startTime Driver.t_toValue Driver.t_startValue Z.odd].
  rewrite andb_false_r.
  repeat split; try reflexivity; try lia.
  - change (inject_Z 0) with 0. lra.
  - lra.
Qed.

(** A frame keeps an endless loop going: it either continues the current
    repetition or ends it and starts the next one at its own timestamp,
    with the ends of the next repetition. *)
Lemma driver_frame_looping (now now' : Q) (s : Driver.RepeatState) :
  Driver.looping t rv from t0 now s ->
  now <= now' ->
  Driver.looping t rv from t0 now' (Driver.repeat_onFrame (config t) n rv s now').
Proof.
  intros (Hfin & Hreps & Hends & Hstart & Hlo & Hhi) Hnow.
  unfold Driver.repeat_onFrame. rewrite Hfin.
  unfold Driver.timing_onFrame.
  qle_cases (Qle_bool (duration (config t)) (now' - Driver.t_startTime (Driver.r_inner s))) E.
  - rewrite endless_reps.
    unfold Driver.looping, Driver.timing_onStart.
    cbn [Driver.r_finished Driver.r_inner Driver.r_reps Driver.r_startValue
         Driver.t_startTime Driver.t_toValue Driver.t_startValue Driver.t_current].
    split; [reflexivity |]. split; [lia |].
    split.
    { unfold Driver.leg_ends in *. rewrite Z.odd_add. cbn [Z.odd].
      rewrite Hstart.
      destruct rv; cbn [andb] in *.
      - destruct (Z.odd (Driver.r_reps s)); cbn [xorb];
          injection Hends as H1 H2; now rewrite H1, H2.
      - exact Hends. }
    split.
    { destruct rv; reflexivity. }
    split; [| lra].
    rewrite inject_Z_plus. change (inject_Z 1) with 1. lra.
  - unfold Driver.looping.
    cbn [Driver.r_finished Driver.r_inner Driver.r_reps Driver.r_startValue
         Driver.t_startTime Driver.t_toValue Driver.t_startValue Driver.t_current].
    repeat split; auto; lra.
Qed.

Lemma driver_run_looping (frames : list Q) (now : Q) (s : Driver.RepeatState) :
  Driver.looping t rv from t0 now s ->
  Driver.ascending now frames = true ->
  Driver.looping t rv from t0 (last frames now) (Driver.run t n rv s frames).
Proof.
  revert now s. induction frames as [| f rest IH]; intros now s Hs Hasc.
  - exact Hs.
  - cbn [Driver.ascending] in Hasc. apply andb_true_iff in Hasc.
    destruct Hasc as [Hf Hrest]. apply Qle_bool_iff in Hf.
    unfold Driver.run. cbn [fold_left].
    rewrite last_cons_default. apply IH; [| exact Hrest].
    now apply driver_frame_looping with now.
Qed.

(** What the next frame shows: the target of the repetition, exactly,
    when it comes at least one duration after the repetition began, the
    eased blend of its two ends before that. *)
Lemma driver_next_frame (now now' : Q) (s : Driver.RepeatState) :
  Driver.looping t rv from t0 now s ->
  let leg := Driver.r_inner s in
  let s' := Driver.repeat_onFrame (config t) n rv s now' in
  (duration (config t) <= now' - Driver.t_startTime leg ->
   Driver.r_current s' = Driver.t_toValue leg /\
   Driver.r_reps s' = (Driver.r_reps s + 1)%Z /\
   Driver.t_startTime (Driver.r_inner s') = now') /\
  (now' - Driver.t_startTime leg < duration (config t) ->
   Driver.r_current s'
   = Driver.t_startValue leg
     + (Driver.t_toValue leg - Driver.t_startValue leg)
       * easing (config t) ((now' - Driver.t_startTime leg) / duration (config t)) /\
   Driver.r_reps s' = Driver.r_reps s /\
   Driver.t_startTime (Driver.r_inner s') = Driver.t_startTime leg).
Proof.
  intros (Hfin & _) leg s'. unfold s', Driver.repeat_onFrame. rewrite Hfin.
  unfold Driver.timing_onFrame. fold leg.
  qle_cases (Qle_bool (duration (config t)) (now' - Driver.t_startTime leg)) E.
  - rewrite endless_reps. split; [| intros; lra].
    intros _. repeat split; reflexivity.
  - split; [intros; lra |].
    intros _. repeat split; reflexivity.
Qed.

Lemma driver_onStart_looping :
  Driver.looping t rv from t0 t0 (Driver.repeat_onStart t from t0).
Proof.
  unfold Driver.looping, Driver.repeat_onStart, Driver.timing_onStart, Driver.leg_ends.
  cbn [Driver.r_finished Driver.r_inner Driver.r_reps Driver.r_startValue
       Driver.t_startTime Driver.t_toValue Driver.t_startValue Z.odd].
  rewrite andb_false_r.
  repeat split; try reflexivity; try lia.
  - change (inject_Z 0) with 0. lra.
  - lra.
Qed.

(** Every frame of an endless loop shows a value between the two ends of
    the loop, when the easing curve maps the unit interval into itself. *)
Lemma driver_frame_between (lo hi now now' : Q) (s : Driver.RepeatState) :
  unit_range (easing (config t)) ->
  lo <= from <= hi -> lo <= toValue t <= hi ->
  Driver.looping t rv from t0 now s ->
  now <= now' ->
  lo <= Driver.r_current (Driver.repeat_onFrame (config t) n rv s now') <= hi.
Proof.
  intros He Hfrom Hto Hloop Hnow.
  pose proof Hloop as (_ & _ & Hends & _ & _ & Hhi).
  assert (Hleg : lo <= Driver.t_startValue (Driver.r_inner s) <= hi /\
                 lo <= Driver.t_toValue (Driver.r_inner s) <= hi).
  { unfold Driver.leg_ends in Hends.
    destruct (rv && Z.odd _)%bool; injection Hends as H1 H2; rewrite H1, H2;
      split; assumption. }
  pose proof (driver_next_frame now now' s Hloop) as Hnext. cbv zeta in Hnext.
  destruct Hnext as [Hend Hmid].
  destruct (Qlt_le_dec (now' - Driver.t_startTime (Driver.r_inner s))
                       (duration (config t))) as [Hlt | Hge].
  - destruct (Hmid Hlt) as (Hc & _). rewrite Hc.
    apply blend_between; [tauto | tauto |].
    apply He. split.
    + apply Qle_shift_div_l; lra.
    + apply Qle_shift_div_r; lra.
  - destruct (Hend Hge) as (Hc & _). rewrite Hc. tauto.
Qed.

Lemma driver_run_between (lo hi : Q) (frames : list Q) (now : Q)
      (s : Driver.RepeatState) :
  unit_range (easing (config t)) ->
  lo <= from <= hi -> lo <= toValue t <= hi ->
  Driver.looping t rv from t0 now s ->
  lo <= Driver.r_current s <= hi ->
  Driver.ascending now frames = true ->
  lo <= Driver.r_current (Driver.run t n rv s frames) <= hi.
Proof.
  intros He Hfrom Hto. revert now s.
  induction frames as [| f rest IH]; intros now s Hs Hcur Hasc.
  - exact Hcur.
  - cbn [Driver.ascending] in Hasc. apply andb_true_iff in Hasc.
    destruct Hasc as [Hf Hrest]. apply Qle_bool_iff in Hf.
    unfold Driver.run. cbn [fold_left].
    apply (IH f); [| | exact Hrest].
    + now apply driver_frame_looping with now.
    + now apply driver_frame_between with now.
Qed.

End DriverLoop.

(** An endless loop run frame by frame stays between its two ends. *)
Lemma driver_loop_between (t : Timing) (rv : bool) (v t0 : Q) (frames : list Q)
      (lo hi : Q) :
  0 < duration (config t) ->
  unit_range (easing (config t)) ->
  lo <= v <= hi -> lo <= toValue t <= hi ->
  Driver.ascending t0 frames = true ->
  lo <= Driver.r_current (Driver.run t (-1) rv (Driver.start t (-1) rv v t0) frames) <= hi.
Proof.
  intros Hd He Hv Hto Hasc.
  assert (Hn : (-1 <= 0)%Z) by lia.
  apply (driver_run_between t (-1) rv v t0 Hd Hn lo hi frames t0); auto.
  - apply driver_start_looping; assumption.
  - unfold Driver.start.
    apply (driver_frame_between t (-1) rv v t0 Hd Hn lo hi t0 t0); auto.
    + apply driver_onStart_looping.
    + lra.
Qed.

(** The facts about an endless loop that the statements below share. *)
Lemma driver_loop_facts (t : Timing) (rv : bool) (v t0 : Q) (frames : list Q) :
  0 < duration (config t) ->
  Driver.ascending t0 frames = true ->
  let d := duration (config t) in
  let s := Driver.run t (-1) rv (Driver.start t (-1) rv v t0) frames in
  let leg := Driver.r_inner s in
  Driver.r_finished s = false /\
  (0 <= Driver.r_reps s)%Z /\
  (Driver.t_startValue leg, Driver.t_toValue leg)
  = Driver.leg_ends rv v (toValue t) (Driver.r_reps s) /\
  t0 + inject_Z (Driver.r_reps s) * d <= Driver.t_startTime leg <= last frames t0 /\
  forall now,
    let s' := Driver.repeat_onFrame (config t) (-1) rv s now in
    (d <= now - Driver.t_startTime leg ->
     Driver.r_current s' = Driver.t_toValue leg /\
     Driver.r_reps s' = (Driver.r_reps s + 1)%Z /\
     Driver.t_startTime (Driver.r_inner s') = now) /\
    (now - Driver.t_startTime leg < d ->
     Driver.r_current s'
     = Driver.t_startValue leg
       + (Driver.t_toValue leg - Driver.t_startValue leg)
         * easing (config t) ((now - Driver.t_startTime leg) / d) /\
     Driver.r_reps s' = Driver.r_reps s /\
     Driver.t_startTime (Driver.r_inner s') = Driver.t_startTime leg).
Proof.
  intros Hd Hasc d s leg.
  assert (Hn : (-1 <= 0)%Z) by lia.
  pose proof (driver_run_looping t (-1) rv v t0 Hn frames t0 _
                (driver_start_looping t (-1) rv v t0 Hd) Hasc) as Hloop.
  fold s in Hloop.
  pose proof Hloop as (Hfin & Hreps & Hends & _ & Hlo & Hhi).
  split; [exact Hfin |]. split; [exact Hreps |]. split; [exact Hends |].
  split; [split; assumption |].
  intros now. exact (driver_next_frame t (-1) rv v t0 Hn _ now s Hloop).
Qed.




(* ================================================================== *)
(** ** Switching between the modes *)

Lemma circle_render_to_determinate (st : Circle.State) (p : Circle.Props) :
  Circle.c_indeterminate (Circle.props st) = true ->
  Circle.c_indeterminate (Circle.destructure p) = false ->
  Circle.spinRotation (Circle.render p st) = Idle 0.
Proof.
  intros Hold Hnew. cbn [Circle.render Circle.spinRotation].
  unfold Circle.spinDeps. rewrite Hold, Hnew. cbn [Bool.eqb andb].
  unfold Circle.spinEffect. now rewrite Hnew.
Qed.

Lemma circle_render_to_indeterminate (st : Circle.State) (p : Circle.Props) :
  Circle.c_indeterminate (Circle.props st) = false ->
  Circle.c_indeterminate (Circle.destructure p) = true ->
  Circle.progressValue (Circle.render p st)
  = Idle (clampedProgress (Circle.c_progress (Circle.destructure p))).
Proof.
  intros Hold Hnew. cbn [Circle.render Circle.progressValue].
  unfold Circle.progressDeps. rewrite Hold, Hnew. cbn [Bool.eqb]. rewrite andb_false_r.
  unfold Circle.progressEffect. rewrite Hnew. now rewrite andb_false_r.
Qed.

Lemma bar_render_to_determinate (ease : Q -> Q) (st : Bar.State) (p : Bar.Props) :
  Bar.c_indeterminate (Bar.props st) = true ->
  Bar.c_indeterminate (Bar.destructure p) = false ->
  Bar.indeterminateValue (Bar.render ease p st) = Idle 0.
Proof.
  intros Hold Hnew. cbn [Bar.render Bar.indeterminateValue].
  unfold Bar.indeterminateDeps. rewrite Hold, Hnew. cbn [Bool.eqb andb].
  unfold Bar.indeterminateEffect. now rewrite Hnew.
Qed.

Lemma bar_render_to_indeterminate (ease : Q -> Q) (st : Bar.State) (p : Bar.Props) :
  Bar.c_indeterminate (Bar.props st) = false ->
  Bar.c_indeterminate (Bar.destructure p) = true ->
  Bar.progressValue (Bar.render ease p st)
  = Idle (clampedProgress (Bar.c_progress (Bar.destructure p))).
Proof.
  intros Hold Hnew. cbn [Bar.render Bar.progressValue].
  unfold Bar.progressDeps. rewrite Hold, Hnew. cbn [Bool.eqb]. rewrite andb_false_r.
  unfold Bar.progressEffect. rewrite Hnew. now rewrite andb_false_r.
Qed.

(** C7.  In either component, a render that switches [indeterminate] from
    true to false finds the loop running, cancels it and leaves its shared
    value (spin rotation, cycle phase) idle at 0, where it stays; from then
    on the component shows the determinate geometry of the current
    progress once [animationDuration] has passed.  A render that switches
    it from false to true drops the progress transition, leaving the
    progress shared value idle at the clamped progress, and starts the
    loop.  Unmounting leaves the loop's shared value idle. *)
Theorem mode_switch_cancels_and_resets (ease : Q -> Q) :
  (forall st p,
      Circle.reachable st ->
      Circle.c_indeterminate (Circle.props st) = true ->
      Circle.c_indeterminate (Circle.destructure p) = false ->
      let st' := Circle.render p st in
      let c := Circle.props st' in
      is_running (Circle.spinRotation st) = true /\
      Circle.spinRotation st' = Idle 0 /\
      (forall dt, read (Circle.spinRotation (Circle.frame dt st')) == 0) /\
      (forall dt, 0 <= dt -> Circle.c_animationDuration c <= dt ->
         Circle.spinnerRotate (Circle.renderSvg (Circle.frame dt st')) = None /\
         Circle.dasharray (Circle.renderSvg (Circle.frame dt st'))
         = Some (Circle.circumference c, Circle.circumference c) /\
         Circle.dashoffset (Circle.renderSvg (Circle.frame dt st'))
         == (if Circle.isCounterClockwise c then -1 else 1)
            * (Circle.circumference c * (1 - clamp (Circle.c_progress c) 0 1)))) /\
  (forall st p,
      Circle.reachable st ->
      Circle.c_indeterminate (Circle.props st) = false ->
      Circle.c_indeterminate (Circle.destructure p) = true ->
      let st' := Circle.render p st in
      rests_at (clamp (Circle.c_progress (Circle.props st')) 0 1) (Circle.progressValue st') /\
      is_running (Circle.spinRotation st') = true) /\
  (forall st, is_running (Circle.spinRotation (Circle.unmount st)) = false) /\
  (forall st p,
      Bar.reachable ease st ->
      Bar.c_indeterminate (Bar.props st) = true ->
      Bar.c_indeterminate (Bar.destructure p) = false ->
      let st' := Bar.render ease p st in
      let c := Bar.props st' in
      is_running (Bar.indeterminateValue st) = true /\
      Bar.indeterminateValue st' = Idle 0 /\
      (forall dt, read (Bar.indeterminateValue (Bar.frame dt st')) == 0) /\
      (forall dt, 0 <= dt -> Bar.c_animationDuration c <= dt ->
         Bar.bs_translateX (Bar.barStyle (Bar.frame dt st')) = None /\
         Bar.bs_width (Bar.barStyle (Bar.frame dt st'))
         == read (Bar.containerWidth st') * clamp (Bar.c_progress c) 0 1)) /\
  (forall st p,
      Bar.reachable ease st ->
      Bar.c_indeterminate (Bar.props st) = false ->
      Bar.c_indeterminate (Bar.destructure p) = true ->
      let st' := Bar.render ease p st in
      rests_at (clamp (Bar.c_progress (Bar.props st')) 0 1) (Bar.progressValue st') /\
      is_running (Bar.indeterminateValue st') = true) /\
  (forall st, is_running (Bar.indeterminateValue (Bar.unmount st)) = false).
Proof.
  split; [| split; [| split; [| split; [| split]]]].
  - intros st p Hst Hold Hnew st' c.
    assert (Hst' : Circle.reachable st') by now constructor.
    pose proof (circle_spin_inv st Hst) as Hloop. rewrite Hold in Hloop.
    pose proof (circle_render_to_determinate st p Hold Hnew) as Hidle.
    change (Circle.spinRotation st' = Idle 0) in Hidle.
    split; [eapply repeating_is_running; exact Hloop |].
    split; [exact Hidle |].
    split.
    + intros dt. cbn [Circle.frame Circle.spinRotation]. rewrite Hidle.
      reflexivity.
    + intros dt H0 Hd.
      assert (Hc : Circle.c_indeterminate (Circle.props (Circle.frame dt st')) = false)
        by exact Hnew.
      split; [unfold Circle.renderSvg; cbn [Circle.spinnerRotate]; now rewrite Hc |].
      split.
      { unfold Circle.renderSvg, Circle.animatedProps. cbn [Circle.dasharray].
        rewrite Hc. reflexivity. }
      rewrite circle_dashoffset_at_rest by assumption.
      fold c. now rewrite clampedProgress_spec.
  - intros st p Hst Hold Hnew st'.
    split.
    + unfold st'. rewrite (circle_render_to_indeterminate st p Hold Hnew).
      simpl. apply clampedProgress_spec.
    + assert (Hst' : Circle.reachable st') by now constructor.
      pose proof (circle_spin_inv st' Hst') as Hloop.
      change (Circle.props st') with (Circle.destructure p) in Hloop.
      rewrite Hnew in Hloop. eapply repeating_is_running; exact Hloop.
  - reflexivity.
  - intros st p Hst Hold Hnew st' c.
    assert (Hst' : Bar.reachable ease st') by now constructor.
    pose proof (bar_loop_inv ease st Hst) as Hloop. rewrite Hold in Hloop.
    pose proof (bar_render_to_determinate ease st p Hold Hnew) as Hidle.
    change (Bar.indeterminateValue st' = Idle 0) in Hidle.
    split; [eapply repeating_is_running; exact Hloop |].
    split; [exact Hidle |].
    split.
    + intros dt. cbn [Bar.frame Bar.indeterminateValue]. rewrite Hidle.
      reflexivity.
    + intros dt H0 Hd.
      destruct (bar_width_at_rest ease st' dt Hst' Hnew H0 Hd) as [Hstyle Hwidth].
      split; [now rewrite Hstyle |].
      rewrite Hwidth. fold c. now rewrite clampedProgress_spec.
  - intros st p Hst Hold Hnew st'.
    split.
    + unfold st'. rewrite (bar_render_to_indeterminate ease st p Hold Hnew).
      simpl. apply clampedProgress_spec.
    + assert (Hst' : Bar.reachable ease st') by now constructor.
      pose proof (bar_loop_inv ease st' Hst') as Hloop.
      change (Bar.props st') with (Bar.destructure p) in Hloop.
      rewrite Hnew in Hloop. eapply repeating_is_running; exact Hloop.
  - reflexivity.
Qed.

Lemma mode_switch_cancels_and_resets_witness :
  let st := Circle.frame 250 (Circle.mount circle_spinner) in
  Circle.reachable st /\
  Circle.c_indeterminate (Circle.props st) = true /\
  Circle.c_indeterminate (Circle.destructure circle_demo) = false /\
  is_running (Circle.spinRotation st) = true /\
  Circle.spinRotation (Circle.render circle_demo st) = Idle 0.
Proof.
  intros st.
  assert (H0 : 0 <= 250) by qdecide.
  assert (H1 : Circle.reachable st) by (apply Circle.reach_frame; [exact H0 | constructor]).
  assert (H2 : Circle.c_indeterminate (Circle.props st) = true) by reflexivity.
  assert (H3 : Circle.c_indeterminate (Circle.destructure circle_demo) = false) by reflexivity.
  split; [exact H1 |]. split; [exact H2 |]. split; [exact H3 |].
  pose proof (proj1 (mode_switch_cancels_and_resets ease_standin) st circle_demo H1 H2 H3) as H.
  split; [exact (proj1 H) | exact (proj1 (proj2 H))].
Defined.

(* ================================================================== *)
(** ** Ranges of what is drawn *)

(** X1.  For [progress] props that are rationals (so never [NaN]): in
    every reachable state of either component, also in the middle of a
    transition, the progress shared value lies in [[0, 1]]: the eased
    blend never overshoots its two ends. *)
Theorem progress_value_in_unit_interval :
  (forall st, Circle.reachable st -> 0 <= read (Circle.progressValue st) <= 1) /\
  (forall ease st, Bar.reachable ease st -> 0 <= read (Bar.progressValue st) <= 1).
Proof.
  split.
  - intros st Hst. apply bounded_read. now apply circle_progress_bounded.
  - intros ease st Hst. apply bounded_read. now apply (bar_progress_bounded ease).
Qed.

Lemma progress_value_in_unit_interval_witness :
  let st := Circle.frame 100 (Circle.render circle_overdriven (Circle.mount circle_demo)) in
  Circle.reachable st /\ 0 <= read (Circle.progressValue st) <= 1.
Proof.
  intros st.
  assert (H0 : 0 <= 100) by qdecide.
  assert (H1 : Circle.reachable st)
    by (apply Circle.reach_frame; [exact H0 | apply Circle.reach_render, Circle.reach_mount]).
  split; [exact H1 |].
  exact (proj1 progress_value_in_unit_interval st H1).
Defined.

Lemma Math_PI_pos : 0 < Math_PI.
Proof. reflexivity. Qed.

Lemma circumference_nonneg (c : Circle.Config) :
  Circle.c_thickness c <= Circle.c_size c -> 0 <= Circle.circumference c.
Proof.
  intros H. unfold Circle.circumference, Circle.radius.
  pose proof Math_PI_pos.
  assert (Hr : 0 <= (Circle.c_size c - Circle.c_thickness c) / 2)
    by (apply Qle_shift_div_l; lra).
  apply Qmult_le_0_compat; [lra | exact Hr].
Qed.

(** X2.  In every reachable determinate state of the circle whose stroke
    is no thicker than the diameter, at every instant: the arc is dashed
    (circumference, circumference), the dash-offset is
    [circumference * (1 - fraction)] (negated when counter-clockwise), so
    its magnitude lies in [[0, circumference]] and the visible part of the
    dash, circumference minus that magnitude, is [circumference * fraction]. *)
Theorem circle_arc_within_ring (st : Circle.State) :
  Circle.reachable st ->
  Circle.c_indeterminate (Circle.props st) = false ->
  Circle.c_thickness (Circle.props st) <= Circle.c_size (Circle.props st) ->
  let c := Circle.circumference (Circle.props st) in
  let fraction := read (Circle.progressValue st) in
  let sign := if Circle.isCounterClockwise (Circle.props st) then -1 else 1 in
  Circle.dasharray (Circle.renderSvg st) = Some (c, c) /\
  Circle.spinnerRotate (Circle.renderSvg st) = None /\
  Circle.dashoffset (Circle.renderSvg st) == sign * (c * (1 - fraction)) /\
  0 <= sign * Circle.dashoffset (Circle.renderSvg st) <= c /\
  c - sign * Circle.dashoffset (Circle.renderSvg st) == c * fraction.
Proof.
  intros Hst Hind Hsize c fraction sign.
  pose proof (bounded_read _ _ _ (circle_progress_bounded st Hst)) as [Hf0 Hf1].
  pose proof (circumference_nonneg _ Hsize) as Hc. fold c in Hc. fold fraction in Hf0, Hf1.
  assert (Hoff : Circle.dashoffset (Circle.renderSvg st) == sign * (c * (1 - fraction))).
  { unfold Circle.renderSvg, Circle.animatedProps. rewrite Hind.
    cbn [Circle.dashoffset Circle.strokeDashoffset Circle.determinateProps].
    fold c fraction. unfold sign.
    destruct (Circle.isCounterClockwise (Circle.props st)); ring. }
  split.
  { unfold Circle.renderSvg, Circle.animatedProps. rewrite Hind. reflexivity. }
  split.
  { unfold Circle.renderSvg. cbn [Circle.spinnerRotate]. now rewrite Hind. }
  split; [exact Hoff |].
  assert (Hmag : sign * Circle.dashoffset (Circle.renderSvg st) == c * (1 - fraction)).
  { rewrite Hoff. unfold sign.
    destruct (Circle.isCounterClockwise (Circle.props st)); ring. }
  rewrite Hmag.
  assert (H1 : 0 <= c * (1 - fraction)) by (apply Qmult_le_0_compat; lra).
  assert (H2 : 0 <= c * fraction) by (apply Qmult_le_0_compat; lra).
  split; [split; lra | ring].
Qed.

Lemma circle_arc_within_ring_witness :
  let st := Circle.frame 100 (Circle.render circle_overdriven (Circle.mount circle_demo)) in
  Circle.reachable st /\
  Circle.c_indeterminate (Circle.props st) = false /\
  Circle.c_thickness (Circle.props st) <= Circle.c_size (Circle.props st) /\
  0 <= -1 * Circle.dashoffset (Circle.renderSvg st)
    <= Circle.circumference (Circle.props st).
Proof.
  intros st.
  assert (H0 : 0 <= 100) by qdecide.
  assert (H1 : Circle.reachable st)
    by (apply Circle.reach_frame; [exact H0 | apply Circle.reach_render, Circle.reach_mount]).
  assert (H2 : Circle.c_indeterminate (Circle.props st) = false) by reflexivity.
  assert (H3 : Circle.c_thickness (Circle.props st) <= Circle.c_size (Circle.props st))
    by qdecide.
  split; [exact H1 |]. split; [exact H2 |]. split; [exact H3 |].
  exact (proj1 (proj2 (proj2 (proj2 (circle_arc_within_ring st H1 H2 H3))))).
Defined.

(** X3.  In every reachable determinate state of the bar whose container
    width [w] is not negative, at every instant, the filled segment is
    [w * fraction] wide with the fraction in [[0, 1]]: it is never wider
    than the container and never of negative width, and it is not
    translated. *)
Theorem bar_fill_within_track (ease : Q -> Q) (st : Bar.State) :
  Bar.reachable ease st ->
  Bar.c_indeterminate (Bar.props st) = false ->
  0 <= read (Bar.containerWidth st) ->
  let w := read (Bar.containerWidth st) in
  Bar.bs_width (Bar.barStyle st) == w * read (Bar.progressValue st) /\
  0 <= Bar.bs_width (Bar.barStyle st) <= w /\
  Bar.bs_translateX (Bar.barStyle st) = None.
Proof.
  intros Hst Hind Hw w.
  pose proof (bounded_read _ _ _ (bar_progress_bounded ease st Hst)) as [Hf0 Hf1].
  unfold Bar.barStyle. rewrite Hind.
  unfold Bar.determinateStyle. cbn [Bar.bs_width Bar.bs_translateX]. fold w in Hw |- *.
  set (f := read (Bar.progressValue st)) in *.
  assert (H1 : 0 <= w * f) by (apply Qmult_le_0_compat; lra).
  assert (H2 : 0 <= w * (1 - f)) by (apply Qmult_le_0_compat; lra).
  split; [reflexivity |]. split; [split; lra | reflexivity].
Qed.

Lemma bar_fill_within_track_witness :
  let st := Bar.frame 120 (Bar.render ease_standin bar_fixed
                             (Bar.mount ease_standin (bar_props (Some 0.9) (Some 120) None))) in
  Bar.reachable ease_standin st /\
  Bar.c_indeterminate (Bar.props st) = false /\
  0 <= read (Bar.containerWidth st) /\
  0 <= Bar.bs_width (Bar.barStyle st) <= read (Bar.containerWidth st).
Proof.
  intros st.
  assert (H0 : 0 <= 120) by qdecide.
  assert (H1 : Bar.reachable ease_standin st)
    by (apply Bar.reach_frame; [exact H0 | apply Bar.reach_render, Bar.reach_mount]).
  assert (H2 : Bar.c_indeterminate (Bar.props st) = false) by reflexivity.
  assert (H3 : 0 <= read (Bar.containerWidth st)) by qdecide.
  split; [exact H1 |]. split; [exact H2 |]. split; [exact H3 |].
  exact (proj1 (proj2 (bar_fill_within_track ease_standin st H1 H2 H3))).
Defined.

(** X4.  Provided [Easing.ease] maps [[0, 1]] into itself: in every
    reachable state of the bar the cycle phase lies in [[0, 1]], and while
    the bar is indeterminate with a container width [w] that is not
    negative, the segment stays inside the container: its offset is not
    negative and offset plus segment width does not exceed [w]. *)
Theorem indeterminate_segment_stays_inside (ease : Q -> Q) (st : Bar.State) :
  unit_range ease ->
  Bar.reachable ease st ->
  0 <= read (Bar.indeterminateValue st) <= 1 /\
  (Bar.c_indeterminate (Bar.props st) = true ->
   0 <= read (Bar.containerWidth st) ->
   exists x,
     Bar.bs_translateX (Bar.barStyle st) = Some x /\
     0 <= x /\
     x + Bar.bs_width (Bar.barStyle st) <= read (Bar.containerWidth st)).
Proof.
  intros Hease Hst.
  assert (Hphase : 0 <= read (Bar.indeterminateValue st) <= 1)
    by (apply bounded_read; now apply (bar_phase_bounded ease)).
  split; [exact Hphase |].
  intros Hind Hw.
  unfold Bar.barStyle. rewrite Hind.
  destruct (indeterminate_segment st) as (Hwidth & x & Hx & Hval).
  exists x. split; [exact Hx |].
  rewrite Hwidth, Hval.
  set (w := read (Bar.containerWidth st)) in *.
  set (ph := read (Bar.indeterminateValue st)) in *.
  destruct Hphase as [Hp0 Hp1].
  assert (H1 : 0 <= ph * w) by (apply Qmult_le_0_compat; lra).
  assert (H2 : 0 <= (1 - ph) * w) by (apply Qmult_le_0_compat; lra).
  split; lra.
Qed.

Lemma ease_standin_unit : unit_range ease_standin.
Proof.
  intros x [H0 H1]. unfold ease_standin.
  assert (Hx2 : 0 <= x * x) by (apply Qmult_le_0_compat; lra).
  assert (Hy2 : 0 <= (1 - x) * (1 - x)) by (apply Qmult_le_0_compat; lra).
  assert (Ha : 0 <= x * x * (3 - 2 * x)) by (apply Qmult_le_0_compat; lra).
  assert (Hb : 0 <= (1 - x) * (1 - x) * (1 + 2 * x)) by (apply Qmult_le_0_compat; lra).
  split; [exact Ha | lra].
Qed.

Lemma indeterminate_segment_stays_inside_witness :
  let st := Bar.frame 1300 (Bar.mount ease_standin bar_looping) in
  Bar.reachable ease_standin st /\
  0 <= read (Bar.indeterminateValue st) <= 1.
Proof.
  intros st.
  assert (H0 : 0 <= 1300) by qdecide.
  assert (H1 : Bar.reachable ease_standin st)
    by (apply Bar.reach_frame; [exact H0 | apply Bar.reach_mount]).
  split; [exact H1 |].
  exact (proj1 (indeterminate_segment_stays_inside ease_standin st ease_standin_unit H1)).
Defined.

(* ================================================================== *)
(** ** The spinner of the circle *)

(** X5.  The spin rotation of the circle lies in [[0, 360]] in every
    reachable state, and while the circle is indeterminate it is the
    rotation of the spinner container.  In every reachable indeterminate
    state with a positive [spinDuration] it is driven by an endless,
    non-reversing repeat of the linear transition to 360 that lasts
    [spinDuration].  Run frame by frame from the value [from] it was
    started at, whatever the frame timestamps: the spin never finishes;
    every frame shows a rotation in [[0, 360]]; every turn runs from
    [from] to 360; a turn ends on the first frame
    that comes at least [spinDuration] after the turn began, showing 360,
    and the next turn begins at that frame; before that a frame shows
    [from + (360 - from) * runtime / spinDuration].  At mount the spin
    starts from 0. *)
Theorem spinner_keeps_turning :
  (forall st, Circle.reachable st -> 0 <= read (Circle.spinRotation st) <= 360) /\
  (forall st,
      Circle.c_indeterminate (Circle.props st) = true ->
      Circle.spinnerRotate (Circle.renderSvg st) = Some (read (Circle.spinRotation st))) /\
  (forall st,
      Circle.reachable st ->
      Circle.c_indeterminate (Circle.props st) = true ->
      0 < Circle.c_spinDuration (Circle.props st) ->
      exists tm from elapsed,
        Circle.spinRotation st = Running (withRepeat tm (-1) false) from elapsed /\
        toValue tm = 360 /\
        duration (config tm) == Circle.c_spinDuration (Circle.props st) /\
        forall t0 frames,
          Driver.ascending t0 frames = true ->
          let d := duration (config tm) in
          let s := Driver.run tm (-1) false (Driver.start tm (-1) false from t0) frames in
          let leg := Driver.r_inner s in
          Driver.r_finished s = false /\
          (0 <= Driver.r_reps s)%Z /\
          (Driver.t_startValue leg, Driver.t_toValue leg) = (from, 360) /\
          t0 + inject_Z (Driver.r_reps s) * d <= Driver.t_startTime leg <= last frames t0 /\
          0 <= Driver.r_current s <= 360 /\
          forall now,
            let s' := Driver.repeat_onFrame (config tm) (-1) false s now in
            (d <= now - Driver.t_startTime leg ->
             Driver.r_current s' = 360 /\
             Driver.r_reps s' = (Driver.r_reps s + 1)%Z /\
             Driver.t_startTime (Driver.r_inner s') = now) /\
            (now - Driver.t_startTime leg < d ->
             Driver.r_current s'
             = from + (360 - from) * ((now - Driver.t_startTime leg) / d) /\
             Driver.r_reps s' = Driver.r_reps s)) /\
  (forall p,
      Circle.c_indeterminate (Circle.destructure p) = true ->
      exists tm, Circle.spinRotation (Circle.mount p)
                 = Running (withRepeat tm (-1) false) 0 0).
Proof.
  split; [intros st Hst; apply bounded_read; now apply circle_spin_bounded |].
  split.
  { intros st Hind. unfold Circle.renderSvg. cbn [Circle.spinnerRotate].
    now rewrite Hind. }
  split.
  - intros st Hst Hind Hd.
    pose proof (circle_spin_inv st Hst) as Hinv. rewrite Hind in Hinv.
    pose proof (circle_spin_bounded st Hst) as Hb.
    destruct (Circle.spinRotation st) as [v | [tm | tm n r] from el]; simpl in Hinv;
      try contradiction.
    destruct Hinv as (Hto & Hdur & Heas & Hn & Hr & Hel). subst n r.
    destruct Hb as (Hfrom & _ & Hto360 & He).
    exists tm, from, el.
    split; [reflexivity |]. split; [exact Hto |]. split; [exact Hdur |].
    intros t0 frames Hasc d s leg.
    assert (Hd' : 0 < duration (config tm)) by (rewrite Hdur; exact Hd).
    pose proof (driver_loop_facts tm false from t0 frames Hd' Hasc) as Hfacts.
    cbv zeta in Hfacts. fold d s leg in Hfacts.
    destruct Hfacts as (Hfin & Hreps & Hends & Htime & Hnext).
    assert (Hends' : (Driver.t_startValue leg, Driver.t_toValue leg) = (from, 360)).
    { rewrite Hends. unfold Driver.leg_ends. rewrite Hto. reflexivity. }
    split; [exact Hfin |]. split; [exact Hreps |]. split; [exact Hends' |].
    split; [exact Htime |].
    split; [now apply driver_loop_between |].
    injection Hends' as Hleg Hto'.
    intros now. specialize (Hnext now). cbv zeta in Hnext.
    rewrite Heas, Hleg, Hto' in Hnext. unfold Easing.linear in Hnext.
    destruct Hnext as [Hend Hmid].
    split.
    + intros H. exact (Hend H).
    + intros H. destruct (Hmid H) as (Hc & Hrp & _). split; assumption.
  - intros p Hind. cbn [Circle.mount Circle.spinRotation].
    unfold Circle.spinEffect. rewrite Hind.
    eexists. reflexivity.
Qed.

Lemma spinner_keeps_turning_witness :
  let st := Circle.frame 250 (Circle.mount circle_spinner) in
  Circle.reachable st /\
  Circle.c_indeterminate (Circle.props st) = true /\
  0 < Circle.c_spinDuration (Circle.props st) /\
  exists tm from elapsed,
    Circle.spinRotation st = Running (withRepeat tm (-1) false) from elapsed /\
    toValue tm = 360.
Proof.
  intros st.
  assert (H0 : 0 <= 250) by qdecide.
  assert (H1 : Circle.reachable st)
    by (apply Circle.reach_frame; [exact H0 | apply Circle.reach_mount]).
  assert (H2 : Circle.c_indeterminate (Circle.props st) = true) by reflexivity.
  assert (H3 : 0 < Circle.c_spinDuration (Circle.props st)) by reflexivity.
  split; [exact H1 |]. split; [exact H2 |]. split; [exact H3 |].
  destruct (proj1 (proj2 (proj2 spinner_keeps_turning)) st H1 H2 H3)
    as (tm & from & el & Hsv & Hto & _).
  exists tm, from, el. split; [exact Hsv | exact Hto].
Defined.

(** With a frame every 16 ms and the default [spinDuration] of 1000 ms,
    the first turn ends on the frame at 1008 ms, which shows 360, and the
    frame at 1024 ms is 16 ms into the second turn. *)
Example spinner_at_16ms_frames :
  let sv := Circle.spinRotation (Circle.mount circle_spinner) in
  loop_value sv 0 (Driver.frames_every 16 0 62) < 360 /\
  loop_value sv 0 (Driver.frames_every 16 0 63) == 360 /\
  loop_value sv 0 (Driver.frames_every 16 0 64) == 5.76.
Proof. intros sv. repeat split; qdecide. Qed.

(* ================================================================== *)
(** ** How the progress effect applies a change *)

Lemma rests_at_proper (v v' : Q) (sv : SharedValue) :
  v == v' -> rests_at v sv -> rests_at v' sv.
Proof.
  intros Hv. destruct sv; simpl; [| auto]. intros H. now rewrite H.
Qed.

Lemma rests_at_plain (v : Q) (sv : SharedValue) :
  rests_at v sv -> is_running sv = false /\ read sv == v.
Proof. destruct sv; simpl; [auto | contradiction]. Qed.

Lemma circle_unanimated_inv (st : Circle.State) :
  Circle.reachable st ->
  (Circle.c_animated (Circle.props st)
   && negb (Circle.c_indeterminate (Circle.props st)))%bool = false ->
  rests_at (clampedProgress (Circle.c_progress (Circle.props st))) (Circle.progressValue st).
Proof.
  induction 1 as [p | p st Hst IH | dt st Hdt Hst IH];
    cbn [Circle.mount Circle.render Circle.frame Circle.props Circle.progressValue];
    intros Hcond.
  - unfold Circle.progressEffect. rewrite Hcond. simpl. reflexivity.
  - destruct (Circle.progressDeps _ _) eqn:Hdeps.
    + unfold Circle.progressDeps in Hdeps. rewrite !andb_true_iff in Hdeps.
      destruct Hdeps as (((Hp & Ha) & _) & Hi).
      apply same_number_eq in Hp. apply eqb_prop in Ha, Hi.
      rewrite <- Ha, <- Hi in Hcond.
      eapply rests_at_proper; [| exact (IH Hcond)]. now rewrite Hp.
    + unfold Circle.progressEffect. rewrite Hcond. simpl. reflexivity.
  - specialize (IH Hcond). now apply rests_at_read.
Qed.

Lemma bar_unanimated_inv (ease : Q -> Q) (st : Bar.State) :
  Bar.reachable ease st ->
  (Bar.c_animated (Bar.props st) && negb (Bar.c_indeterminate (Bar.props st)))%bool = false ->
  rests_at (clampedProgress (Bar.c_progress (Bar.props st))) (Bar.progressValue st).
Proof.
  induction 1 as [p | p st Hst IH | m st Hst IH | dt st Hdt Hst IH];
    cbn [Bar.mount Bar.render Bar.frame Bar.handleLayout Bar.props Bar.progressValue];
    intros Hcond.
  - unfold Bar.progressEffect. rewrite Hcond. simpl. reflexivity.
  - destruct (Bar.progressDeps _ _) eqn:Hdeps.
    + unfold Bar.progressDeps in Hdeps. rewrite !andb_true_iff in Hdeps.
      destruct Hdeps as (((Hp & Ha) & _) & Hi).
      apply same_number_eq in Hp. apply eqb_prop in Ha, Hi.
      rewrite <- Ha, <- Hi in Hcond.
      eapply rests_at_proper; [| exact (IH Hcond)]. now rewrite Hp.
    + unfold Bar.progressEffect. rewrite Hcond. simpl. reflexivity.
  - exact (IH Hcond).
  - specialize (IH Hcond). now apply rests_at_read.
Qed.

(** X6.  In every reachable state of either component in which
    [animated] is false or [indeterminate] is true, no progress transition
    is running and the progress shared value already holds the clamp of
    the current [progress] prop: such changes are applied at once. *)
Theorem unanimated_progress_is_immediate :
  (forall st,
      Circle.reachable st ->
      (Circle.c_animated (Circle.props st)
       && negb (Circle.c_indeterminate (Circle.props st)))%bool = false ->
      is_running (Circle.progressValue st) = false /\
      read (Circle.progressValue st) == clamp (Circle.c_progress (Circle.props st)) 0 1) /\
  (forall ease st,
      Bar.reachable ease st ->
      (Bar.c_animated (Bar.props st) && negb (Bar.c_indeterminate (Bar.props st)))%bool = false ->
      is_running (Bar.progressValue st) = false /\
      read (Bar.progressValue st) == clamp (Bar.c_progress (Bar.props st)) 0 1).
Proof.
  split.
  - intros st Hst Hcond.
    destruct (rests_at_plain _ _ (circle_unanimated_inv st Hst Hcond)) as [Hrun Hval].
    split; [exact Hrun |]. rewrite Hval. apply clampedProgress_spec.
  - intros ease st Hst Hcond.
    destruct (rests_at_plain _ _ (bar_unanimated_inv ease st Hst Hcond)) as [Hrun Hval].
    split; [exact Hrun |]. rewrite Hval. apply clampedProgress_spec.
Qed.

Lemma unanimated_progress_is_immediate_witness :
  let p := {| Bar.progress := Some 0.8; Bar.width := Some 50; Bar.height := None;
              Bar.color := None; Bar.unfilledColor := None;
              Bar.borderRadius := None; Bar.borderWidth := None; Bar.borderColor := None;
              Bar.animated := Some false; Bar.animationDuration := None;
              Bar.indeterminate := None; Bar.indeterminateDuration := None |} in
  let st := Bar.render ease_standin p (Bar.mount ease_standin bar_fixed) in
  Bar.reachable ease_standin st /\
  (Bar.c_animated (Bar.props st) && negb (Bar.c_indeterminate (Bar.props st)))%bool = false /\
  is_running (Bar.progressValue st) = false /\
  read (Bar.progressValue st) == clamp 0.8 0 1.
Proof.
  intros p st.
  assert (H1 : Bar.reachable ease_standin st) by (apply Bar.reach_render, Bar.reach_mount).
  assert (H2 : (Bar.c_animated (Bar.props st)
                && negb (Bar.c_indeterminate (Bar.props st)))%bool = false) by reflexivity.
  split; [exact H1 |]. split; [exact H2 |].
  exact (proj2 unanimated_progress_is_immediate ease_standin st H1 H2).
Defined.

Lemma quad_proper : Proper (Qeq ==> Qeq) Easing.quad.
Proof. intros x y H. unfold Easing.quad. now rewrite H. Qed.

Lemma default_easing_proper : Proper (Qeq ==> Qeq) default_easing.
Proof. apply inOut_proper, quad_proper. Qed.

Lemma default_easing_start : default_easing 0 == 0.
Proof. reflexivity. Qed.

(** A transition that has just started still shows the value it started
    from. *)
Lemma timing_at_start (from : Q) (t : Timing) :
  Proper (Qeq ==> Qeq) (easing (config t)) ->
  easing (config t) 0 == 0 ->
  0 < duration (config t) ->
  timing_at from t 0 == from.
Proof.
  intros He H0 Hd. unfold timing_at.
  qle_cases (Qle_bool (duration (config t)) 0) E; [lra |].
  assert (Ez : easing (config t) (0 / duration (config t)) == 0).
  { rewrite <- H0 at 2. apply He. field. lra. }
  rewrite Ez. ring.
Qed.

(** A timing towards the target of the timing that is running, assigned
    before that one has finished and while the value is not at the
    target, continues it. *)
Lemma animate_continues (target d : Q) (t tm : Timing) (from el : Q) :
  settling target d (Running (once tm) from el) ->
  target == toValue t ->
  el < duration (config tm) ->
  ~ timing_at from tm el == toValue t ->
  animate (once t) (Running (once tm) from el) = Running (once t) from el.
Proof.
  intros (Hto & _) Htarget Hel Hread. unfold animate. cbn [read sample].
  destruct (same_number (timing_at from tm el) (toValue t)) eqn:Esame;
    [apply same_number_eq in Esame; contradiction |].
  unfold continues, same_number.
  rewrite (proj2 (Qeq_bool_iff (toValue tm) (toValue t)))
    by (rewrite Hto; exact Htarget).
  destruct (Qle_bool (duration (config tm)) el) eqn:Ele;
    [apply Qle_bool_iff in Ele; lra | reflexivity].
Qed.

(** X7.  When a render of an animated determinate component re-runs the
    progress effect without changing the clamp of [progress] (another
    [animationDuration], or another [progress] with the same clamp) while
    a transition is still running and the value is not yet at the target,
    the new transition continues the running one: it keeps its start value
    and its elapsed time and takes the new [animationDuration].  The value
    is then the eased blend at [elapsed / animationDuration] of the new
    duration, so a change of duration makes it jump. *)
Theorem same_target_render_continues_transition :
  (forall st p tm from el,
      let c := Circle.destructure p in
      let target := clampedProgress (Circle.c_progress c) in
      Circle.reachable st ->
      Circle.progressDeps (Circle.props st) c = false ->
      clampedProgress (Circle.c_progress (Circle.props st)) == target ->
      Circle.c_animated c = true -> Circle.c_indeterminate c = false ->
      Circle.progressValue st = Running (once tm) from el ->
      el < duration (config tm) ->
      ~ read (Circle.progressValue st) == target ->
      Circle.progressValue (Circle.render p st)
      = Running (once (withTiming target
                         (Reanimated.mkConfig (Circle.c_animationDuration c) default_easing)))
                from el) /\
  (forall ease st p tm from el,
      let c := Bar.destructure p in
      let target := clampedProgress (Bar.c_progress c) in
      Bar.reachable ease st ->
      Bar.progressDeps (Bar.props st) c = false ->
      clampedProgress (Bar.c_progress (Bar.props st)) == target ->
      Bar.c_animated c = true -> Bar.c_indeterminate c = false ->
      Bar.progressValue st = Running (once tm) from el ->
      el < duration (config tm) ->
      ~ read (Bar.progressValue st) == target ->
      Bar.progressValue (Bar.render ease p st)
      = Running (once (withTiming target
                         (Reanimated.mkConfig (Bar.c_animationDuration c) default_easing)))
                from el).
Proof.
  split.
  - intros st p tm from el c target Hst Hdeps Hsame Ha Hi Hsv Hel Hread.
    pose proof (circle_progress_inv st Hst) as Hinv.
    cbn [Circle.render Circle.progressValue]. fold c. rewrite Hdeps.
    unfold Circle.progressEffect. rewrite Ha, Hi. cbn [andb negb].
    rewrite Hsv in Hinv, Hread |- *.
    eapply animate_continues; [exact Hinv | exact Hsame | exact Hel | exact Hread].
  - intros ease st p tm from el c target Hst Hdeps Hsame Ha Hi Hsv Hel Hread.
    pose proof (bar_progress_inv ease st Hst) as Hinv.
    cbn [Bar.render Bar.progressValue]. fold c. rewrite Hdeps.
    unfold Bar.progressEffect. rewrite Ha, Hi. cbn [andb negb].
    rewrite Hsv in Hinv, Hread |- *.
    eapply animate_continues; [exact Hinv | exact Hsame | exact Hel | exact Hread].
Qed.

Lemma same_target_render_continues_transition_witness :
  let st := Circle.frame 100 (Circle.render circle_overdriven (Circle.mount circle_demo)) in
  let tm := withTiming 1 (Reanimated.mkConfig 300 default_easing) in
  let c := Circle.destructure circle_overdriven_slow in
  Circle.reachable st /\
  Circle.progressDeps (Circle.props st) c = false /\
  Circle.progressValue st = Running (once tm) 0.75 (0 + 100) /\
  0 + 100 < duration (config tm) /\
  Circle.progressValue (Circle.render circle_overdriven_slow st)
  = Running (once (withTiming (clampedProgress (Circle.c_progress c))
                     (Reanimated.mkConfig (Circle.c_animationDuration c) default_easing)))
            0.75 (0 + 100).
Proof.
  intros st tm c.
  assert (H100 : 0 <= 100) by qdecide.
  assert (H0 : Circle.reachable st).
  { apply Circle.reach_frame; [exact H100 |].
    apply Circle.reach_render. apply Circle.reach_mount. }
  assert (H1 : Circle.progressDeps (Circle.props st) c = false) by reflexivity.
  assert (H2 : clampedProgress (Circle.c_progress (Circle.props st))
               == clampedProgress (Circle.c_progress c)) by reflexivity.
  assert (H3 : Circle.c_animated c = true) by reflexivity.
  assert (H4 : Circle.c_indeterminate c = false) by reflexivity.
  assert (H5 : Circle.progressValue st = Running (once tm) 0.75 (0 + 100)) by reflexivity.
  assert (H6 : 0 + 100 < duration (config tm)) by reflexivity.
  assert (H7 : ~ read (Circle.progressValue st) == clampedProgress (Circle.c_progress c))
    by qdecide.
  split; [exact H0 |]. split; [exact H1 |]. split; [exact H5 |]. split; [exact H6 |].
  exact (proj1 same_target_render_continues_transition
               st circle_overdriven_slow tm 0.75 (0 + 100) H0 H1 H2 H3 H4 H5 H6 H7).
Defined.

(** A transition from 0.75 to 1 lasting 300 ms shows 29/36 (0.8056) after
    100 ms.  Rendered then with [progress] 2, so the same target, and an
    [animationDuration] of 3000 ms, it shows 1351/1800 (0.7506); rendered
    instead with [progress] 2 alone, it stays where it is. *)
Example duration_change_makes_the_value_jump :
  let st := Circle.frame 100 (Circle.render circle_overdriven (Circle.mount circle_demo)) in
  read (Circle.progressValue st) == 29 # 36 /\
  read (Circle.progressValue (Circle.render circle_overdriven_slow st)) == 1351 # 1800 /\
  read (Circle.progressValue
          (Circle.render
             {| Circle.progress := Some 2; Circle.size := 100; Circle.thickness := None;
                Circle.direction := Some Circle.counter_clockwise; Circle.animated := None;
                Circle.animationDuration := None; Circle.indeterminate := None;
                Circle.spinDuration := None |} st)) == 29 # 36.
Proof. intros st. repeat split; qdecide. Qed.

(** X8.  A render that changes none of the entries of the effects'
    dependency arrays (for the circle: [progress], [animated],
    [animationDuration], [indeterminate], [spinDuration]; for the bar the
    same with [indeterminateDuration] and [width]) leaves every shared
    value as it was: changing only size, thickness, direction, height,
    colours or border restarts no animation. *)
Theorem render_with_same_dependencies_keeps_animations :
  (forall st p,
      let c := Circle.destructure p in
      Circle.c_progress (Circle.props st) == Circle.c_progress c ->
      Circle.c_animated (Circle.props st) = Circle.c_animated c ->
      Circle.c_animationDuration (Circle.props st) == Circle.c_animationDuration c ->
      Circle.c_indeterminate (Circle.props st) = Circle.c_indeterminate c ->
      Circle.c_spinDuration (Circle.props st) == Circle.c_spinDuration c ->
      Circle.progressValue (Circle.render p st) = Circle.progressValue st /\
      Circle.spinRotation (Circle.render p st) = Circle.spinRotation st) /\
  (forall ease st p,
      let c := Bar.destructure p in
      Bar.c_progress (Bar.props st) == Bar.c_progress c ->
      Bar.c_animated (Bar.props st) = Bar.c_animated c ->
      Bar.c_animationDuration (Bar.props st) == Bar.c_animationDuration c ->
      Bar.c_indeterminate (Bar.props st) = Bar.c_indeterminate c ->
      Bar.c_indeterminateDuration (Bar.props st) == Bar.c_indeterminateDuration c ->
      same_width (Bar.c_width (Bar.props st)) (Bar.c_width c) = true ->
      Bar.progressValue (Bar.render ease p st) = Bar.progressValue st /\
      Bar.indeterminateValue (Bar.render ease p st) = Bar.indeterminateValue st /\
      Bar.containerWidth (Bar.render ease p st) = Bar.containerWidth st).
Proof.
  split.
  - intros st p c Hp Ha Hd Hi Hs.
    cbn [Circle.render Circle.progressValue Circle.spinRotation]. fold c.
    unfold Circle.progressDeps, Circle.spinDeps, same_number.
    apply Qeq_bool_iff in Hp, Hd, Hs. rewrite Hp, Hd, Hs, Ha, Hi, !eqb_reflx.
    split; reflexivity.
  - intros ease st p c Hp Ha Hd Hi Hs Hw.
    cbn [Bar.render Bar.progressValue Bar.indeterminateValue Bar.containerWidth]. fold c.
    unfold Bar.progressDeps, Bar.indeterminateDeps, Bar.widthDeps, same_number.
    apply Qeq_bool_iff in Hp, Hd, Hs. rewrite Hp, Hd, Hs, Ha, Hi, Hw, !eqb_reflx.
    repeat split; reflexivity.
Qed.

Lemma render_with_same_dependencies_keeps_animations_witness :
  let st := Circle.frame 100 (Circle.mount circle_spinner) in
  let p := {| Circle.progress := Some 0.4; Circle.size := 200; Circle.thickness := Some 10;
              Circle.direction := Some Circle.counter_clockwise; Circle.animated := None;
              Circle.animationDuration := None; Circle.indeterminate := Some true;
              Circle.spinDuration := Some 1000 |} in
  Circle.progressValue (Circle.render p st) = Circle.progressValue st /\
  Circle.spinRotation (Circle.render p st) = Circle.spinRotation st.
Proof.
  intros st p.
  apply (proj1 render_with_same_dependencies_keeps_animations st p);
    reflexivity.
Defined.

(* ================================================================== *)
(** ** The ring inside its box *)

(** X9.  For every size and thickness the two circles of [renderSvg] are
    concentric at the centre of the [size] x [size] box and share radius
    and stroke width, and the outer edge of the stroke (radius plus half
    the thickness) reaches exactly the edge of the box on both sides; the
    inner edge is at [size / 2 - thickness] from the centre. *)
Theorem ring_fills_its_box (st : Circle.State) :
  let c := Circle.props st in
  let arc := Circle.renderSvg st in
  let track := backgroundCircle c in
  Circle.cx arc == fst (circleBox c) / 2 /\
  Circle.cy arc == snd (circleBox c) / 2 /\
  track_cx track = Circle.cx arc /\ track_cy track = Circle.cy arc /\
  track_r track = Circle.r arc /\
  track_strokeWidth track = Circle.strokeWidth arc /\
  Circle.cx arc - (Circle.r arc + Circle.strokeWidth arc / 2) == 0 /\
  Circle.cx arc + (Circle.r arc + Circle.strokeWidth arc / 2) == fst (circleBox c) /\
  Circle.r arc - Circle.strokeWidth arc / 2 == Circle.c_size c / 2 - Circle.c_thickness c.
Proof.
  intros c arc track. unfold arc, track, Circle.renderSvg, backgroundCircle, circleBox.
  cbn [Circle.cx Circle.cy Circle.r Circle.strokeWidth fst snd
       track_cx track_cy track_r track_strokeWidth].
  unfold Circle.center, Circle.radius. fold c.
  repeat split; try reflexivity; field.
Qed.

(* ================================================================== *)
(** ** The container width before and between layout events *)

(** X10.  A bar mounted without a usable [width] ([null] or 0) has a
    container width of 0 until the first layout event: whatever the
    progress and the mode, its filled segment is 0 wide (and, when
    indeterminate, not displaced). *)
Theorem auto_width_bar_is_empty_before_layout (ease : Q -> Q) (p : Bar.Props) (dt : Q) :
  truthy (Bar.c_width (Bar.destructure p)) = false ->
  let st := Bar.frame dt (Bar.mount ease p) in
  read (Bar.containerWidth st) == 0 /\
  Bar.bs_width (Bar.barStyle st) == 0 /\
  (Bar.c_indeterminate (Bar.destructure p) = true ->
   exists x, Bar.bs_translateX (Bar.barStyle st) = Some x /\ x == 0).
Proof.
  intros Hf st.
  assert (Hw : Bar.containerWidth st = Idle 0).
  { unfold st. cbn [Bar.frame Bar.mount Bar.containerWidth].
    unfold Bar.widthEffect, or_else.
    destruct (Bar.c_width (Bar.destructure p)); [rewrite Hf |]; reflexivity. }
  split; [now rewrite Hw |].
  split.
  - unfold Bar.barStyle.
    destruct (Bar.c_indeterminate (Bar.props st)).
    + destruct (indeterminate_segment st) as [H _]. rewrite H, Hw. reflexivity.
    + unfold Bar.determinateStyle. cbn [Bar.bs_width]. rewrite Hw. simpl. ring.
  - intros Hind. unfold Bar.barStyle.
    change (Bar.props st) with (Bar.destructure p). rewrite Hind.
    destruct (indeterminate_segment st) as (_ & x & Hx & Hval).
    exists x. split; [exact Hx |]. rewrite Hval, Hw. simpl. ring.
Qed.

Lemma auto_width_bar_is_empty_before_layout_witness :
  truthy (Bar.c_width (Bar.destructure bar_demo)) = false /\
  Bar.bs_width (Bar.barStyle (Bar.frame 500 (Bar.mount ease_standin bar_demo))) == 0.
Proof.
  assert (H : truthy (Bar.c_width (Bar.destructure bar_demo)) = false) by reflexivity.
  split; [exact H |].
  exact (proj1 (proj2 (auto_width_bar_is_empty_before_layout ease_standin bar_demo 500 H))).
Defined.

(** X11.  When a bar that had a non-zero explicit width [w] is rendered
    again without a usable width, the container becomes 100% wide but the
    width shared value keeps [w] until the next layout event, which then
    replaces it by the measured width. *)
Theorem removed_width_is_kept_until_layout (ease : Q -> Q) (st : Bar.State)
        (p : Bar.Props) (w : Q) :
  Bar.reachable ease st ->
  Bar.c_width (Bar.props st) = Some w -> ~ w == 0 ->
  truthy (Bar.c_width (Bar.destructure p)) = false ->
  let st' := Bar.render ease p st in
  Bar.cs_width (Bar.containerStyle (Bar.props st')) = Bar.percent 100 /\
  read (Bar.containerWidth st') == w /\
  (forall dt, read (Bar.containerWidth (Bar.frame dt st')) == w) /\
  (forall m, read (Bar.containerWidth (Bar.handleLayout m st')) = m).
Proof.
  intros Hst Hw Hnz Hf st'.
  destruct (bar_width_inv ease st Hst) as (v & Hv & Hexp).
  assert (Hkeep : Bar.containerWidth st' = Idle v).
  { unfold st'. cbn [Bar.render Bar.containerWidth].
    destruct (Bar.widthDeps _ _); [exact Hv |].
    unfold Bar.widthEffect.
    destruct (Bar.c_width (Bar.destructure p)); [rewrite Hf |]; exact Hv. }
  split.
  { unfold Bar.containerStyle, or_else. cbn [Bar.cs_width].
    change (Bar.props st') with (Bar.destructure p).
    destruct (Bar.c_width (Bar.destructure p)); [now rewrite Hf | reflexivity]. }
  split; [rewrite Hkeep; simpl; now apply Hexp |].
  split.
  { intros dt. cbn [Bar.frame Bar.containerWidth]. rewrite Hkeep. simpl. now apply Hexp. }
  intros m. unfold Bar.handleLayout. cbn [Bar.containerWidth].
  change (Bar.props st') with (Bar.destructure p). now rewrite Hf.
Qed.

Lemma removed_width_is_kept_until_layout_witness :
  let st := Bar.mount ease_standin bar_fixed in
  let st' := Bar.render ease_standin bar_demo st in
  Bar.reachable ease_standin st /\
  Bar.c_width (Bar.props st) = Some 120 /\ ~ 120 == 0 /\
  truthy (Bar.c_width (Bar.destructure bar_demo)) = false /\
  read (Bar.containerWidth st') == 120.
Proof.
  intros st st'.
  assert (H1 : Bar.reachable ease_standin st) by constructor.
  assert (H2 : Bar.c_width (Bar.props st) = Some 120) by reflexivity.
  assert (H3 : ~ 120 == 0) by qdecide.
  assert (H4 : truthy (Bar.c_width (Bar.destructure bar_demo)) = false) by reflexivity.
  split; [exact H1 |]. split; [exact H2 |]. split; [exact H3 |]. split; [exact H4 |].
  exact (proj1 (proj2 (removed_width_is_kept_until_layout
                         ease_standin st bar_demo 120 H1 H2 H3 H4))).
Defined.

(* ================================================================== *)
(** ** Restarting a loop with a new duration *)

Lemma same_number_false (a b : Q) : ~ a == b -> same_number a b = false.
Proof.
  intros H. unfold same_number. destruct (Qeq_bool a b) eqn:E; [| reflexivity].
  apply Qeq_bool_iff in E. contradiction.
Qed.

(** X12.  When an indeterminate bar is rendered with a different,
    positive [indeterminateDuration], the effect cancels the loop and
    assigns a new one to the shared value as it stands, so the new loop
    starts from the phase [v] the old one had reached.  Run frame by
    frame, whatever the frame timestamps, the new loop never finishes and
    its sweeps alternate from [v] to 1 and from 1 back to [v]: the lower
    bound of the oscillation is [v], not 0.  From a reachable state, and
    when [Easing.ease] maps the unit interval into itself, every frame
    shows a phase in [[0, 1]]. *)
Theorem bar_loop_restarts_from_current_phase (ease : Q -> Q) (st : Bar.State)
        (p : Bar.Props) :
  Bar.c_indeterminate (Bar.props st) = true ->
  Bar.c_indeterminate (Bar.destructure p) = true ->
  ~ Bar.c_indeterminateDuration (Bar.props st)
    == Bar.c_indeterminateDuration (Bar.destructure p) ->
  0 < Bar.c_indeterminateDuration (Bar.destructure p) ->
  let v := read (Bar.indeterminateValue st) in
  exists tm,
    Bar.indeterminateValue (Bar.render ease p st) = Running (withRepeat tm (-1) true) v 0 /\
    toValue tm = 1 /\
    duration (config tm) = Bar.c_indeterminateDuration (Bar.destructure p) /\
    forall t0 frames,
      Driver.ascending t0 frames = true ->
      let s := Driver.run tm (-1) true (Driver.start tm (-1) true v t0) frames in
      Driver.r_finished s = false /\
      (Driver.t_startValue (Driver.r_inner s), Driver.t_toValue (Driver.r_inner s))
      = (if Z.odd (Driver.r_reps s) then (1, v) else (v, 1)) /\
      (Bar.reachable ease st -> unit_range ease -> 0 <= Driver.r_current s <= 1).
Proof.
  intros Hold Hnew Hdiff Hd v.
  eexists. split.
  { cbn [Bar.render Bar.indeterminateValue].
    unfold Bar.indeterminateDeps. rewrite (same_number_false _ _ Hdiff), andb_false_r.
    unfold Bar.indeterminateEffect. rewrite Hnew.
    cbn [animate read Bar.indeterminateCleanup cancelAnimation]. reflexivity. }
  split; [reflexivity |]. split; [reflexivity |].
  intros t0 frames Hasc s.
  match goal with
  | s := Driver.run ?tm _ _ _ _ |- _ =>
      pose proof (driver_loop_facts tm true v t0 frames Hd Hasc) as Hfacts
  end.
  cbv zeta in Hfacts. fold s in Hfacts.
  destruct Hfacts as (Hfin & _ & Hends & _).
  split; [exact Hfin |]. split; [rewrite Hends; reflexivity |].
  intros Hst Hu.
  pose proof (bounded_read _ _ _ (bar_phase_bounded ease Hu st Hst)) as Hv.
  apply driver_loop_between; auto.
  - cbn [config easing]. now apply inOut_unit.
  - cbn [toValue]. lra.
Qed.

Lemma bar_loop_restarts_from_current_phase_witness :
  let st := Bar.frame 400 (Bar.mount ease_standin bar_looping) in
  Bar.c_indeterminate (Bar.props st) = true /\
  Bar.c_indeterminate (Bar.destructure bar_looping_fast) = true /\
  ~ Bar.c_indeterminateDuration (Bar.props st)
    == Bar.c_indeterminateDuration (Bar.destructure bar_looping_fast) /\
  0 < Bar.c_indeterminateDuration (Bar.destructure bar_looping_fast) /\
  exists tm,
    Bar.indeterminateValue (Bar.render ease_standin bar_looping_fast st)
    = Running (withRepeat tm (-1) true) (read (Bar.indeterminateValue st)) 0.
Proof.
  intros st.
  assert (H1 : Bar.c_indeterminate (Bar.props st) = true) by reflexivity.
  assert (H2 : Bar.c_indeterminate (Bar.destructure bar_looping_fast) = true) by reflexivity.
  assert (H3 : ~ Bar.c_indeterminateDuration (Bar.props st)
                 == Bar.c_indeterminateDuration (Bar.destructure bar_looping_fast))
    by qdecide.
  assert (H4 : 0 < Bar.c_indeterminateDuration (Bar.destructure bar_looping_fast))
    by reflexivity.
  split; [exact H1 |]. split; [exact H2 |]. split; [exact H3 |]. split; [exact H4 |].
  destruct (bar_loop_restarts_from_current_phase ease_standin st bar_looping_fast
              H1 H2 H3 H4) as (tm & Hsv & _).
  exists tm. exact Hsv.
Defined.

(** The loop restarted at phase 0.448 shows 1 on the frame that ends its
    first sweep and 0.448 again, not 0, on the frame that ends its
    second. *)
Example bar_restarted_loop_lower_bound :
  let sv := Bar.indeterminateValue
              (Bar.render ease_standin bar_looping_fast
                 (Bar.frame 400 (Bar.mount ease_standin bar_looping))) in
  loop_value sv 0 [] == 0.448 /\
  loop_value sv 0 [250; 500] == 1 /\
  loop_value sv 0 [250; 500; 750; 1000] == 0.448.
Proof. intros sv. repeat split; qdecide. Qed.

(** X13.  When an indeterminate circle is rendered with a different,
    positive [spinDuration], the effect cancels the spin and assigns a new
    one to the shared value as it stands, so the new spin starts from the
    rotation [r] the old one had reached.  Run frame by frame, whatever
    the frame timestamps, the new spin never finishes and every one of its
    turns runs from [r] to 360; the frame that ends a turn shows 360;
    from a reachable state every frame shows a rotation in [[0, 360]]. *)
Theorem spin_restarts_from_current_rotation (st : Circle.State) (p : Circle.Props) :
  Circle.c_indeterminate (Circle.props st) = true ->
  Circle.c_indeterminate (Circle.destructure p) = true ->
  ~ Circle.c_spinDuration (Circle.props st) == Circle.c_spinDuration (Circle.destructure p) ->
  0 < Circle.c_spinDuration (Circle.destructure p) ->
  let r := read (Circle.spinRotation st) in
  exists tm,
    Circle.spinRotation (Circle.render p st) = Running (withRepeat tm (-1) false) r 0 /\
    toValue tm = 360 /\
    duration (config tm) = Circle.c_spinDuration (Circle.destructure p) /\
    forall t0 frames,
      Driver.ascending t0 frames = true ->
      let s := Driver.run tm (-1) false (Driver.start tm (-1) false r t0) frames in
      Driver.r_finished s = false /\
      (Driver.t_startValue (Driver.r_inner s), Driver.t_toValue (Driver.r_inner s))
      = (r, 360) /\
      (Circle.reachable st -> 0 <= Driver.r_current s <= 360) /\
      forall now,
        Circle.c_spinDuration (Circle.destructure p)
        <= now - Driver.t_startTime (Driver.r_inner s) ->
        Driver.r_current (Driver.repeat_onFrame (config tm) (-1) false s now) = 360.
Proof.
  intros Hold Hnew Hdiff Hd r.
  eexists. split.
  { cbn [Circle.render Circle.spinRotation].
    unfold Circle.spinDeps. rewrite (same_number_false _ _ Hdiff), andb_false_r.
    unfold Circle.spinEffect. rewrite Hnew.
    cbn [animate read Circle.spinCleanup cancelAnimation]. reflexivity. }
  split; [reflexivity |]. split; [reflexivity |].
  intros t0 frames Hasc s.
  match goal with
  | s := Driver.run ?tm _ _ _ _ |- _ =>
      pose proof (driver_loop_facts tm false r t0 frames Hd Hasc) as Hfacts
  end.
  cbv zeta in Hfacts. fold s in Hfacts.
  destruct Hfacts as (Hfin & _ & Hends & _ & Hnext).
  split; [exact Hfin |]. split; [exact Hends |].
  split.
  { intros Hst.
    pose proof (bounded_read _ _ _ (circle_spin_bounded st Hst)) as Hr.
    apply driver_loop_between; auto.
    - cbn [config easing]. apply linear_unit.
    - cbn [toValue]. lra. }
  intros now Hnow. destruct (Hnext now) as [Hend _].
  destruct (Hend Hnow) as (Hc & _). rewrite Hc.
  unfold Driver.leg_ends in Hends. cbn [andb] in Hends.
  now injection Hends as _ Hto.
Qed.

Lemma spin_restarts_from_current_rotation_witness :
  let st := Circle.frame 250 (Circle.mount circle_spinner) in
  Circle.c_indeterminate (Circle.props st) = true /\
  Circle.c_indeterminate (Circle.destructure circle_spinner_slow) = true /\
  ~ Circle.c_spinDuration (Circle.props st)
    == Circle.c_spinDuration (Circle.destructure circle_spinner_slow) /\
  0 < Circle.c_spinDuration (Circle.destructure circle_spinner_slow) /\
  exists tm,
    Circle.spinRotation (Circle.render circle_spinner_slow st)
    = Running (withRepeat tm (-1) false) (read (Circle.spinRotation st)) 0.
Proof.
  intros st.
  assert (H1 : Circle.c_indeterminate (Circle.props st) = true) by reflexivity.
  assert (H2 : Circle.c_indeterminate (Circle.destructure circle_spinner_slow) = true)
    by reflexivity.
  assert (H3 : ~ Circle.c_spinDuration (Circle.props st)
                 == Circle.c_spinDuration (Circle.destructure circle_spinner_slow))
    by qdecide.
  assert (H4 : 0 < Circle.c_spinDuration (Circle.destructure circle_spinner_slow))
    by reflexivity.
  split; [exact H1 |]. split; [exact H2 |]. split; [exact H3 |]. split; [exact H4 |].
  destruct (spin_restarts_from_current_rotation st circle_spinner_slow H1 H2 H3 H4)
    as (tm & Hsv & _).
  exists tm. exact Hsv.
Defined.

(** The spin restarted at 90 degrees shows 360 on the frame that ends a
    turn and is back near 90, not near 0, on the frame after it. *)
Example restarted_spin_turns_from_90 :
  let sv := Circle.spinRotation
              (Circle.render circle_spinner_slow
                 (Circle.frame 250 (Circle.mount circle_spinner))) in
  loop_value sv 0 [] == 90 /\
  loop_value sv 0 [1000; 2000] == 360 /\
  loop_value sv 0 [1000; 2000; 2016] == 92.16.
Proof. intros sv. repeat split; qdecide. Qed.

(* ================================================================== *)
(** ** Order and direction *)

(** X14.  The clamp written in both progress effects is monotone and
    idempotent; so for a container width that is not negative, a larger
    [progress] never gives a narrower filled segment at rest. *)
Theorem clampedProgress_monotone_idempotent :
  (forall p q, p <= q -> clampedProgress p <= clampedProgress q) /\
  (forall p, clampedProgress (clampedProgress p) == clampedProgress p) /\
  (forall w p q, 0 <= w -> p <= q -> w * clampedProgress p <= w * clampedProgress q).
Proof.
  assert (Hmono : forall p q, p <= q -> clampedProgress p <= clampedProgress q).
  { intros p q Hpq. rewrite !clampedProgress_spec. unfold clamp.
    qle_cases (Qle_bool p 0) Ep0; qle_cases (Qle_bool q 0) Eq0;
      qle_cases (Qle_bool 1 p) Ep1; qle_cases (Qle_bool 1 q) Eq1; lra. }
  split; [exact Hmono |].
  split.
  - intros p. rewrite (clampedProgress_spec (clampedProgress p)).
    apply clamp_inside, clampedProgress_range.
  - intros w p q Hw Hpq. specialize (Hmono p q Hpq).
    assert (H : 0 <= w * (clampedProgress q - clampedProgress p))
      by (apply Qmult_le_0_compat; lra).
    lra.
Qed.

Lemma clampedProgress_monotone_idempotent_witness :
  -1 <= 0.3 /\ clampedProgress (-1) <= clampedProgress 0.3.
Proof.
  assert (H : -1 <= 0.3) by qdecide.
  split; [exact H |].
  exact (proj1 clampedProgress_monotone_idempotent (-1) 0.3 H).
Defined.

(** X15.  A render of a determinate circle that changes only [direction]
    mirrors the arc at once and leaves the running progress transition
    alone: the dash-offset right after the render is the negation of the
    dash-offset right before it, and the progress shared value is
    untouched. *)
Theorem direction_flip_mirrors_the_arc (st : Circle.State) (p : Circle.Props) :
  let c := Circle.destructure p in
  Circle.c_progress (Circle.props st) == Circle.c_progress c ->
  Circle.c_animated (Circle.props st) = Circle.c_animated c ->
  Circle.c_animationDuration (Circle.props st) == Circle.c_animationDuration c ->
  Circle.c_indeterminate (Circle.props st) = false ->
  Circle.c_indeterminate c = false ->
  Circle.c_size (Circle.props st) == Circle.c_size c ->
  Circle.c_thickness (Circle.props st) == Circle.c_thickness c ->
  Circle.isCounterClockwise c = negb (Circle.isCounterClockwise (Circle.props st)) ->
  Circle.progressValue (Circle.render p st) = Circle.progressValue st /\
  Circle.dashoffset (Circle.renderSvg (Circle.render p st))
  == - Circle.dashoffset (Circle.renderSvg st).
Proof.
  intros c Hp Ha Hd Hi Hi' Hsize Hthick Hdir.
  assert (Hkeep : Circle.progressValue (Circle.render p st) = Circle.progressValue st).
  { cbn [Circle.render Circle.progressValue]. fold c.
    unfold Circle.progressDeps, same_number.
    apply Qeq_bool_iff in Hp, Hd. now rewrite Hp, Hd, Ha, Hi, Hi', !eqb_reflx. }
  split; [exact Hkeep |].
  unfold Circle.renderSvg, Circle.animatedProps.
  change (Circle.props (Circle.render p st)) with c. rewrite Hi, Hi'.
  cbn [Circle.dashoffset Circle.strokeDashoffset Circle.determinateProps].
  change (Circle.props (Circle.render p st)) with c.
  rewrite Hkeep, Hdir.
  assert (Hc : Circle.circumference c == Circle.circumference (Circle.props st)).
  { unfold Circle.circumference, Circle.radius. now rewrite Hsize, Hthick. }
  destruct (Circle.isCounterClockwise (Circle.props st)); cbn [negb]; rewrite Hc; ring.
Qed.

Lemma direction_flip_mirrors_the_arc_witness :
  let st := Circle.frame 100 (Circle.render circle_demo (Circle.mount circle_overdriven)) in
  Circle.progressValue (Circle.render circle_demo_reversed st) = Circle.progressValue st /\
  Circle.dashoffset (Circle.renderSvg (Circle.render circle_demo_reversed st))
  == - Circle.dashoffset (Circle.renderSvg st).
Proof.
  intros st.
  apply (direction_flip_mirrors_the_arc st circle_demo_reversed); reflexivity.
Defined.

(** A timing towards a target the value holds already is not started. *)
Lemma animate_at_target (t : Timing) (sv : SharedValue) :
  read sv == toValue t -> animate (once t) sv = Idle (read sv).
Proof.
  intros H. unfold animate, same_number.
  now rewrite (proj2 (Qeq_bool_iff _ _) H).
Qed.

(** A timing towards a new target starts afresh from the current value. *)
Lemma animate_fresh (target d : Q) (t : Timing) (sv : SharedValue) :
  settling target d sv -> ~ target == toValue t -> ~ read sv == toValue t ->
  animate (once t) sv = Running (once t) (read sv) 0.
Proof.
  intros Hinv Hnew Hread. unfold animate.
  destruct (same_number (read sv) (toValue t)) eqn:Esame;
    [apply same_number_eq in Esame; contradiction |].
  destruct sv as [v | [t' | t' n rv] from el]; simpl in Hinv; [reflexivity | | contradiction].
  unfold continues.
  destruct (same_number (toValue t') (toValue t)) eqn:Eto; [| reflexivity].
  apply same_number_eq in Eto. destruct Hinv as (Ht & _).
  exfalso. apply Hnew. now rewrite <- Ht.
Qed.

(** X16.  When a render of an animated determinate component changes
    the clamp of [progress], the progress shared value moves from where it
    is to the new clamp without ever leaving the interval between the two:
    with a positive [animationDuration] the value right after the render
    is the value right before it, [t] ms after the render it lies between
    that value and the new target (no overshoot, no detour), and it is the
    target once [animationDuration] has passed. *)
Theorem progress_change_moves_between_old_and_new :
  (forall st p t,
      let c := Circle.destructure p in
      let v := read (Circle.progressValue st) in
      let target := clampedProgress (Circle.c_progress c) in
      Circle.reachable st ->
      ~ clampedProgress (Circle.c_progress (Circle.props st)) == target ->
      Circle.c_animated c = true -> Circle.c_indeterminate c = false ->
      0 <= t ->
      Qmin v target
      <= read (Circle.progressValue (Circle.frame t (Circle.render p st)))
      <= Qmax v target /\
      (Circle.c_animationDuration c <= t ->
       read (Circle.progressValue (Circle.frame t (Circle.render p st))) == target) /\
      (0 < Circle.c_animationDuration c ->
       read (Circle.progressValue (Circle.render p st)) == v)) /\
  (forall ease st p t,
      let c := Bar.destructure p in
      let v := read (Bar.progressValue st) in
      let target := clampedProgress (Bar.c_progress c) in
      Bar.reachable ease st ->
      ~ clampedProgress (Bar.c_progress (Bar.props st)) == target ->
      Bar.c_animated c = true -> Bar.c_indeterminate c = false ->
      0 <= t ->
      Qmin v target
      <= read (Bar.progressValue (Bar.frame t (Bar.render ease p st)))
      <= Qmax v target /\
      (Bar.c_animationDuration c <= t ->
       read (Bar.progressValue (Bar.frame t (Bar.render ease p st))) == target) /\
      (0 < Bar.c_animationDuration c ->
       read (Bar.progressValue (Bar.render ease p st)) == v)).
Proof.
  assert (Hgen : forall target0 d0 sv target d t,
            settling target0 d0 sv -> ~ target0 == target -> 0 <= t ->
            let v := read sv in
            let sv' := animate (once (withTiming target
                                        (Reanimated.mkConfig d default_easing))) sv in
            Qmin v target <= read (advance t sv') <= Qmax v target /\
            (d <= t -> read (advance t sv') == target) /\
            (0 < d -> read sv' == v)).
  { intros target0 d0 sv target d t Hinv Hnew Ht v sv'.
    destruct (Qeq_dec v target) as [Heq | Hne].
    - unfold sv'. rewrite animate_at_target by exact Heq.
      cbn [advance read]. fold v.
      split; [split; [apply Q.le_min_l | apply Q.le_max_l] |].
      split; intros _; [exact Heq | reflexivity].
    - unfold sv'. rewrite (animate_fresh target0 d0) by assumption.
      cbn [advance read sample]. fold v.
      split; [| split].
      + apply timing_at_between.
        * apply default_easing_unit.
        * lra.
        * split; [apply Q.le_min_l | apply Q.le_max_l].
        * split; [apply Q.le_min_r | apply Q.le_max_r].
      + intros Hd. rewrite timing_at_done; [reflexivity |].
        cbn [config duration]. lra.
      + intros Hd. apply timing_at_start;
          [apply default_easing_proper | apply default_easing_start | exact Hd]. }
  assert (Hprog : forall a b, ~ clampedProgress a == clampedProgress b -> ~ a == b).
  { intros a b Hne Hab. apply Hne. now rewrite Hab. }
  split.
  - intros st p t c v target Hst Hdiff Ha Hi Ht.
    pose proof (circle_progress_inv st Hst) as Hinv.
    pose proof (Hprog _ _ Hdiff) as Hp.
    cbn [Circle.frame Circle.render Circle.progressValue]. fold c.
    unfold Circle.progressDeps. rewrite (same_number_false _ _ Hp). cbn [andb].
    unfold Circle.progressEffect. rewrite Ha, Hi. cbn [andb negb].
    exact (Hgen _ _ _ target (Circle.c_animationDuration c) t Hinv Hdiff Ht).
  - intros ease st p t c v target Hst Hdiff Ha Hi Ht.
    pose proof (bar_progress_inv ease st Hst) as Hinv.
    pose proof (Hprog _ _ Hdiff) as Hp.
    cbn [Bar.frame Bar.render Bar.progressValue]. fold c.
    unfold Bar.progressDeps. rewrite (same_number_false _ _ Hp). cbn [andb].
    unfold Bar.progressEffect. rewrite Ha, Hi. cbn [andb negb].
    exact (Hgen _ _ _ target (Bar.c_animationDuration c) t Hinv Hdiff Ht).
Qed.

Lemma progress_change_moves_between_old_and_new_witness :
  let st := Circle.mount circle_spinner in
  Circle.reachable st /\
  ~ clampedProgress (Circle.c_progress (Circle.props st))
    == clampedProgress (Circle.c_progress (Circle.destructure circle_demo)) /\
  0 <= 150 /\
  Qmin (read (Circle.progressValue st)) (clampedProgress 0.75)
  <= read (Circle.progressValue (Circle.frame 150 (Circle.render circle_demo st)))
  <= Qmax (read (Circle.progressValue st)) (clampedProgress 0.75).
Proof.
  intros st.
  assert (H0 : Circle.reachable st) by constructor.
  assert (H1 : ~ clampedProgress (Circle.c_progress (Circle.props st))
                 == clampedProgress (Circle.c_progress (Circle.destructure circle_demo)))
    by qdecide.
  assert (H2 : Circle.c_animated (Circle.destructure circle_demo) = true) by reflexivity.
  assert (H3 : Circle.c_indeterminate (Circle.destructure circle_demo) = false) by reflexivity.
  assert (H4 : 0 <= 150) by qdecide.
  split; [exact H0 |]. split; [exact H1 |]. split; [exact H4 |].
  exact (proj1 (proj1 progress_change_moves_between_old_and_new
                  st circle_demo 150 H0 H1 H2 H3 H4)).
Defined.

Example progress_halfway_through_transition :
  read (Circle.progressValue
          (Circle.frame 150 (Circle.render circle_demo (Circle.mount circle_spinner))))
  == 0.575.
Proof. qdecide. Qed.

(** X17.  A layout event on a bar without a usable [width] rescales the
    filled segment at once, with no animation: the segment becomes
    [m * fraction] wide (0.3 * m when indeterminate) for the measured
    width [m]; on a bar with a non-zero explicit [width] a layout event
    changes nothing that is drawn. *)
Theorem layout_rescales_the_fill (st : Bar.State) (m : Q) :
  (truthy (Bar.c_width (Bar.props st)) = false ->
   Bar.bs_width (Bar.barStyle (Bar.handleLayout m st))
   == (if Bar.c_indeterminate (Bar.props st) then 0.3 * m
       else m * read (Bar.progressValue st)) /\
   Bar.progressValue (Bar.handleLayout m st) = Bar.progressValue st /\
   Bar.indeterminateValue (Bar.handleLayout m st) = Bar.indeterminateValue st) /\
  (truthy (Bar.c_width (Bar.props st)) = true ->
   Bar.handleLayout m st = st).
Proof.
  split.
  - intros Hf.
    assert (Hm : Bar.containerWidth (Bar.handleLayout m st) = Idle m).
    { unfold Bar.handleLayout. cbn [Bar.containerWidth]. now rewrite Hf. }
    split; [| split; reflexivity].
    unfold Bar.barStyle. change (Bar.props (Bar.handleLayout m st)) with (Bar.props st).
    destruct (Bar.c_indeterminate (Bar.props st)).
    + destruct (indeterminate_segment (Bar.handleLayout m st)) as [H _].
      rewrite H, Hm. reflexivity.
    + unfold Bar.determinateStyle. cbn [Bar.bs_width]. rewrite Hm. reflexivity.
  - intros Ht. unfold Bar.handleLayout. rewrite Ht. cbn [negb].
    destruct st; reflexivity.
Qed.

Lemma layout_rescales_the_fill_witness :
  let st := Bar.mount ease_standin bar_demo in
  truthy (Bar.c_width (Bar.props st)) = false /\
  Bar.bs_width (Bar.barStyle (Bar.handleLayout 320 st))
  == 320 * read (Bar.progressValue st).
Proof.
  intros st.
  assert (H : truthy (Bar.c_width (Bar.props st)) = false) by reflexivity.
  split; [exact H |].
  exact (proj1 (proj1 (layout_rescales_the_fill st 320) H)).
Defined.
